(** * File archiver: tasks, extension filter, processing pass, task manager

    A shallow embedding of the [task] and [handlers] packages.

    - Part 1 embeds the pieces of the Go standard library the code calls
      ([strings.ToLower], [filepath.Ext], [filepath.Base], [strings.Join],
      the target of [json.Decoder.Decode]) and takes as parameters
      [url.Parse], the Unicode tables of [strings.ToLower] and
      [uuid.New].
    - Part 2 embeds [Task], [isAllowedExtension] and [Task.Process]; the
      file system, the network and the zip writer are an oracle [Env], and
      a pass returns the calls it made as a trace.
    - Part 3 embeds [TaskManager]: the heap of [Task] objects, the map from
      identifiers to them, the buffered channel used as a semaphore, and the
      goroutines in flight, with one scheduler action per atomic step.
    - Part 4 states and proves the properties. *)

From Stdlib Require Import ZArith Ascii String List Lia.
From stdpp Require Import base option list strings gmap.

Local Open Scope Z_scope.

(* ===================================================================== *)
(** * Part 1: the standard library as the code uses it                   *)
(* ===================================================================== *)

Module Go.

(** The byte loop of [strings.ToLower] for a string of ASCII bytes:
    [c += 'a' - 'A'] for the bytes from A to Z. It is also how the key
    [url] of a JSON member is matched whatever its letter case. *)
Definition lower_ascii (c : ascii) : ascii :=
  let n := N_of_ascii c in
  if ((65 <=? n) && (n <=? 90))%N then ascii_of_N (n + 32) else c.

Fixpoint ToLower_ascii (s : string) : string :=
  match s with
  | EmptyString => EmptyString
  | String c r => String (lower_ascii c) (ToLower_ascii r)
  end.

(** The first loop of [strings.ToLower]: no byte is [utf8.RuneSelf] (128)
    or above. *)
Fixpoint is_ascii (s : string) : bool :=
  match s with
  | EmptyString => true
  | String c r => (N_of_ascii c <? 128)%N && is_ascii r
  end.

(** [os.IsPathSeparator] on a Unix system. *)
Definition IsPathSeparator (c : ascii) : bool := Ascii.eqb c "/".

(** [filepath.Ext]: the loop runs from the last byte towards the first,
    stops at a separator, and returns the suffix that starts at the first
    dot it meets. [rpath] is the part not yet visited, reversed; [suffix]
    is the part already visited. *)
Fixpoint Ext_scan (rpath suffix : string) : string :=
  match rpath with
  | EmptyString => EmptyString
  | String c rest =>
      if IsPathSeparator c then EmptyString
      else if Ascii.eqb c "." then String c suffix
      else Ext_scan rest (String c suffix)
  end.

Definition filepath_Ext (path : string) : string :=
  Ext_scan (String.rev path) EmptyString.

(** [filepath.Base]: strip the trailing separators, keep what follows the
    last remaining separator; "." for the empty path and "/" for a path of
    separators only. *)
Fixpoint strip_trailing (rpath : string) : string :=
  match rpath with
  | EmptyString => EmptyString
  | String c rest => if IsPathSeparator c then strip_trailing rest else rpath
  end.

Fixpoint last_element (rpath acc : string) : string :=
  match rpath with
  | EmptyString => acc
  | String c rest =>
      if IsPathSeparator c then acc else last_element rest (String c acc)
  end.

Definition filepath_Base (path : string) : string :=
  if String.eqb path "" then "."
  else
    let b := last_element (strip_trailing (String.rev path)) EmptyString in
    if String.eqb b "" then "/" else b.

(** [strings.Join]. *)
Definition strings_Join (elems : list string) (sep : string) : string :=
  String.concat sep elems.

(** [url.Values] is a Go map from parameter name to the list of its
    values. *)
Abbreviation Values := (gmap string (list string)).

(** The two parts of a parsed [*url.URL] the code reads: [u.Path] and
    [u.Query()]. *)
Record URL := mkURL {
  Path : string;
  Query : Values
}.

(** A JSON text once read: what [json.Decoder] hands to the decoding of
    the target value. *)
Local Unset Elimination Schemes.
Inductive JSON :=
| JNull
| JBool (b : bool)
| JNumber (literal : string)
| JString (s : string)
| JArray (elems : list JSON)
| JObject (members : list (string * JSON)).
Local Set Elimination Schemes.

End Go.

Export Go.

(** What the code calls and is not in the sources. *)
Class Externals := {
  (** [net/url.Parse]; [None] is a non-nil error. *)
  url_Parse : string → option URL;
  (** The string [Task.SetResultURL] stores, given the task's fields
      (identifier, number of files, current result). *)
  resultURL_of : string → nat → string → string;
  (** [strings.Map(unicode.ToLower, s)]: what [strings.ToLower] returns
      for a string that holds a byte above 127 (Unicode case tables,
      invalid UTF-8 replaced). *)
  unicode_ToLower : string → string;
  (** [uuid.New().String()]: the identifier returned by the [n]-th call
      of the run, counted from 0. *)
  uuid_New : nat → string;
  (** The identifiers [uuid.New] returns are fresh: no two calls of a
      run return the same one. *)
  uuid_New_fresh : ∀ m n, uuid_New m = uuid_New n → m = n
}.

(** [strings.ToLower]: the byte loop when the string is ASCII, the
    Unicode mapping otherwise. *)
Definition strings_ToLower `{Externals} (s : string) : string :=
  if is_ascii s then ToLower_ascii s else unicode_ToLower s.

(* ===================================================================== *)
(** * Part 2: package task                                               *)
(* ===================================================================== *)

Inductive TaskStatus :=
| StatusCreated
| StatusProcessing
| StatusDone
| StatusError.

Global Instance TaskStatus_eq_dec : EqDecision TaskStatus.
Proof. solve_decision. Defined.

Record Task := mkTask {
  ID : string;
  Status : TaskStatus;
  FileURLs : list string;
  ResultURL : string;
  ErrorDetails : string
}.

Definition with_Status (s : TaskStatus) (t : Task) : Task :=
  mkTask (ID t) s (FileURLs t) (ResultURL t) (ErrorDetails t).
Definition with_FileURLs (l : list string) (t : Task) : Task :=
  mkTask (ID t) (Status t) l (ResultURL t) (ErrorDetails t).
Definition with_ResultURL (r : string) (t : Task) : Task :=
  mkTask (ID t) (Status t) (FileURLs t) r (ErrorDetails t).
Definition with_ErrorDetails (e : string) (t : Task) : Task :=
  mkTask (ID t) (Status t) (FileURLs t) (ResultURL t) e.

(** [NewTask]; [uuid] is the string [uuid.New().String()] returned. *)
Definition NewTask (uuid : string) : Task :=
  mkTask uuid StatusCreated [] "" "".

(** [Task.AddFile]. *)
Definition AddFile (url : string) (t : Task) : Task :=
  with_FileURLs (FileURLs t ++ [url]) t.

(** [Task.setError]. *)
Definition setError (errStr : string) (t : Task) : Task :=
  with_ErrorDetails errStr (with_Status StatusError t).

(** Modelled from the spec: [Task.SetResultURL] is called by
    [AddFileHandler] and its body is not in the sources. The data model
    has one field it can be about, the result locator, so it is embedded
    as a write to [ResultURL] alone; the value written is the parameter
    [resultURL_of]. *)
Definition SetResultURL `{Externals} (t : Task) : Task :=
  with_ResultURL (resultURL_of (ID t) (length (FileURLs t)) (ResultURL t)) t.

(** ** isAllowedExtension *)

(** The inner loop over the values of one parameter: the first value with
    a non-empty lower-cased extension sets [ext] and breaks. *)
Fixpoint scan_vals `{Externals} (vals : list string) (ext : string) : string :=
  match vals with
  | [] => ext
  | val :: rest =>
      let e := strings_ToLower (filepath_Ext val) in
      if negb (String.eqb e "") then e else scan_vals rest ext
  end.

(** The outer loop over the parameters, in the order [range] visits them;
    it breaks as soon as [ext] is not empty. *)
Fixpoint scan_query `{Externals} (q : list (string * list string)) (ext : string)
    : string :=
  match q with
  | [] => ext
  | (_, vals) :: rest =>
      let ext := scan_vals vals ext in
      if negb (String.eqb ext "") then ext else scan_query rest ext
  end.

(** The final loop over the allow-list. *)
Fixpoint match_allowed (ext : string) (allowedExtensions : list string) : bool :=
  match allowedExtensions with
  | [] => false
  | allowedExt :: rest =>
      if String.eqb ext allowedExt then true else match_allowed ext rest
  end.

(** [range_order] is the order in which this call's [range q] visits the
    map: Go leaves it unspecified, so it is an argument. *)
Definition isAllowedExtension `{Externals}
    (range_order : Values → list (string * list string))
    (fileURL : string) (allowedExtensions : list string) : bool :=
  match url_Parse fileURL with
  | None => false
  | Some u =>
      let ext := strings_ToLower (filepath_Ext (Path u)) in
      let ext :=
        if String.eqb ext "" then scan_query (range_order (Query u)) ext
        else ext in
      match_allowed ext allowedExtensions
  end.

(** ** Task.Process *)

(** What [http.Get] returns when [err] is nil: [resp.StatusCode],
    [resp.Status] and the bytes of [resp.Body]. *)
Record Response := mkResponse {
  StatusCode : Z;
  StatusText : string;
  Body : string
}.

Definition http_StatusOK : Z := 200.

(** The outside world during one pass. An error is the text [%v] prints
    for it. The calls made for the file at position [i] of [FileURLs] are
    indexed by [i], so the same URL may be answered differently twice. *)
Record Env := mkEnv {
  (** [os.Create]: [Some err] when it fails. *)
  os_Create : string → option string;
  (** [http.Get]: [inl err] on a transport error. *)
  http_Get : nat → string → string + Response;
  (** [zipWriter.Create]: [Some err] when it fails. *)
  zip_Create : nat → string → option string;
  (** [io.Copy]: [None] when the whole body is written, [Some (written, err)]
      when it stops with an error after writing [written]. *)
  io_Copy : nat → string → string → option (string * string);
  (** The order of [range q] in the call of [isAllowedExtension]. *)
  range_order : nat → Values → list (string * list string)
}.

(** The calls a pass makes, in order, with the lines it logs. *)
Inductive Effect :=
| Log (line : string)
| OsCreate (name : string)
| FilterURL (fileURL : string)
| HttpGet (fileURL : string)
| ZipCreate (fileName : string)
| IoCopy (fileName : string).

Global Instance Effect_eq_dec : EqDecision Effect.
Proof. solve_decision. Defined.

(** An entry of the archive: its name and the bytes written to it. *)
Definition ZipEntry : Type := string * string.

(** The local variables of the loop of [Process]: [errors], the entries
    written through [zipWriter] so far, and the trace. *)
Record PassState := mkPassState {
  errors : list string;
  entries : list ZipEntry;
  effects : list Effect
}.

Definition emit (es : list Effect) (st : PassState) : PassState :=
  mkPassState (errors st) (entries st) (effects st ++ es).

(** [errors = append(errors, msg)] followed by [continue]. *)
Definition fail_file (es : list Effect) (msg : string) (st : PassState) : PassState :=
  mkPassState (errors st ++ [msg]) (entries st) (effects st ++ es).

Definition add_entry (e : ZipEntry) (st : PassState) : PassState :=
  mkPassState (errors st) (entries st ++ [e]) (effects st).

(** One iteration of [for _, fileURL := range t.FileURLs]. *)
Definition Process_file `{Externals} (env : Env) (allowedExtensions : list string)
    (id : string) (i : nat) (fileURL : string) (st : PassState) : PassState :=
  let st := emit [Log ("Processing file " +:+ fileURL +:+ " for task " +:+ id);
                  FilterURL fileURL] st in
  if negb (isAllowedExtension (range_order env i) fileURL allowedExtensions) then
    fail_file [Log ("File extension not allowed for " +:+ fileURL)]
              ("file extension not allowed: " +:+ fileURL) st
  else
    let st := emit [HttpGet fileURL] st in
    match http_Get env i fileURL with
    | inl err =>
        fail_file [Log ("Failed to download file " +:+ fileURL +:+ ": " +:+ err)]
                  ("failed to download file: " +:+ fileURL +:+ ", error: " +:+ err) st
    | inr resp =>
        if negb (StatusCode resp =? http_StatusOK) then
          fail_file [Log ("Failed to download file " +:+ fileURL +:+ ", status: "
                          +:+ StatusText resp)]
                    ("failed to download file: " +:+ fileURL +:+ ", status: "
                     +:+ StatusText resp) st
        else
          let fileName := filepath_Base fileURL in
          let st := emit [ZipCreate fileName] st in
          match zip_Create env i fileName with
          | Some err =>
              fail_file [Log ("Failed to create zip entry for " +:+ fileName
                              +:+ ": " +:+ err)]
                        ("failed to create zip entry for " +:+ fileName
                         +:+ ": " +:+ err) st
          | None =>
              let st := emit [IoCopy fileName] st in
              match io_Copy env i fileName (Body resp) with
              | Some (written, err) =>
                  fail_file [Log ("Failed to write to zip entry for " +:+ fileName
                                  +:+ ": " +:+ err)]
                            ("failed to write to zip entry for " +:+ fileName
                             +:+ ": " +:+ err)
                            (add_entry (fileName, written) st)
              | None => add_entry (fileName, Body resp) st
              end
          end
    end.

(** The loop, from position [i] on. *)
Fixpoint Process_loop `{Externals} (env : Env) (allowedExtensions : list string)
    (id : string) (i : nat) (urls : list string) (st : PassState) : PassState :=
  match urls with
  | [] => st
  | fileURL :: rest =>
      Process_loop env allowedExtensions id (S i) rest
        (Process_file env allowedExtensions id i fileURL st)
  end.

(** First locked section of [Process]. *)
Definition Process_begin (t : Task) : Task := with_Status StatusProcessing t.

Definition zipFileName_of (id : string) : string := id +:+ ".zip".

(** From [os.Create] to the end of the loop: [inl (msg, trace)] when the
    archive cannot be created, where [msg] is what [setError] receives. *)
Definition Process_files `{Externals} (env : Env) (allowedExtensions : list string)
    (id : string) (urls : list string) : (string * list Effect) + PassState :=
  let zipFileName := zipFileName_of id in
  let start := [Log ("Processing task " +:+ id); OsCreate zipFileName] in
  match os_Create env zipFileName with
  | Some err =>
      inl ("failed to create zip file: " +:+ err,
           start ++ [Log ("Failed to create zip file for task " +:+ id +:+ ": " +:+ err)])
  | None =>
      inr (Process_loop env allowedExtensions id 0 urls (mkPassState [] [] start))
  end.

(** Last locked section of [Process]. *)
Definition Process_end (errs : list string) (t : Task) : Task :=
  let t := if (0 <? length errs)%nat
           then with_ErrorDetails (strings_Join errs "; ") t else t in
  let t := with_Status StatusDone t in
  with_ResultURL ("/archives/" +:+ zipFileName_of (ID t)) t.

Record ProcessResult := mkProcessResult {
  task : Task;
  archive : option (list ZipEntry);
  trace : list Effect
}.

(** [Task.Process] run without interference from other goroutines. *)
Definition Process `{Externals} (env : Env) (allowedExtensions : list string)
    (t : Task) : ProcessResult :=
  let t := Process_begin t in
  match Process_files env allowedExtensions (ID t) (FileURLs t) with
  | inl (msg, tr) => mkProcessResult (setError msg t) None tr
  | inr st =>
      mkProcessResult (Process_end (errors st) t) (Some (entries st))
        (effects st ++ [Log ("Finished processing task " +:+ ID t)])
  end.

(* ===================================================================== *)
(** * Part 3: packages config and handlers                               *)
(* ===================================================================== *)

Record Config := mkConfig {
  Port : string;
  AllowedExtensions : list string;
  MaxFilesPerTask : Z;
  MaxConcurrentTasks : Z
}.

(** ** Decoding the request body

    [json.NewDecoder(r.Body).Decode(&body)] with
    [body struct { URL string `json:"url"` }]. The request body is [None]
    when no JSON value can be read from it (empty or malformed text).
    A member whose key is [url] up to letter case sets the field when its
    value is a string, leaves it when the value is null, and makes [Decode]
    return an error for any other value; other members are skipped; null in
    place of the object leaves the struct as it is; any other value in place
    of the object is an error. *)
Fixpoint decode_members (members : list (string * JSON)) (url : string)
    (failed : bool) : string * bool :=
  match members with
  | [] => (url, failed)
  | (key, v) :: rest =>
      if String.eqb (ToLower_ascii key) "url" then
        match v with
        | JString s => decode_members rest s failed
        | JNull => decode_members rest url failed
        | _ => decode_members rest url true
        end
      else decode_members rest url failed
  end.

(** [Some url] is [err == nil] with [body.URL = url]. *)
Definition Decode_body (r_Body : option JSON) : option string :=
  match r_Body with
  | None => None
  | Some JNull => Some ""
  | Some (JObject members) =>
      let '(url, failed) := decode_members members "" false in
      if failed then None else Some url
  | Some _ => None
  end.

(** ** The state of the server *)

(** A goroutine between two of its atomic steps; [t] is the [*task.Task]
    it holds, an index into the heap. *)
Inductive Goroutine :=
| AddFile_check (t : nat)          (* AddFileHandler after [t.AddFile] *)
| AddFile_send (t : nat)           (* AddFileHandler at the channel send *)
| Go_Process (t : nat)             (* the [go func], before [t.Process] *)
| Process_running (t : nat)        (* [Process] after its first locked section *)
| Process_finishing (t : nat) (st : PassState)  (* [Process] after the loop *)
| Go_release.                      (* the deferred receive *)

(** [Tasks] is [tm.Tasks]; [concurrentTaskSema] is the number of elements
    buffered in the channel, [len(tm.concurrentTaskSema)]. *)
Record System := mkSystem {
  heap : list Task;
  Tasks : gmap string nat;
  concurrentTaskSema : nat;
  goroutines : list Goroutine
}.

Definition http_StatusCreated : Z := 201.
Definition http_StatusAccepted : Z := 202.
Definition http_StatusBadRequest : Z := 400.
Definition http_StatusNotFound : Z := 404.
Definition http_StatusServiceUnavailable : Z := 503.

(** What a step shows outside: a response (its status code and, for a
    created task, the JSON-encoded task), or the start of a [go func]. *)
Inductive Event :=
| Respond (code : Z) (payload : option Task)
| Launch (t : nat).

(** [NewTaskManager]; [make] panics on a negative capacity. *)
Definition NewTaskManager (cfg : Config) : option System :=
  if MaxConcurrentTasks cfg <? 0 then None
  else Some (mkSystem [] ∅ 0 []).

(** [CreateTaskHandler], with the identifier [uuid.New] draws. *)
Definition CreateTaskHandler (cfg : Config) (uuid : string) (s : System)
    : System * list Event :=
  if Z.of_nat (concurrentTaskSema s) >=? MaxConcurrentTasks cfg then
    (s, [Respond http_StatusServiceUnavailable None])
  else
    let t := NewTask uuid in
    (mkSystem (heap s ++ [t]) (<[ID t := length (heap s)]> (Tasks s))
              (concurrentTaskSema s) (goroutines s),
     [Respond http_StatusCreated (Some t)]).

(** [AddFileHandler] up to and including [t.AddFile(body.URL)]. *)
Definition AddFileHandler (taskID : string) (r_Body : option JSON) (s : System)
    : System * list Event :=
  match Tasks s !! taskID with
  | None => (s, [Respond http_StatusNotFound None])
  | Some t =>
      match Decode_body r_Body with
      | None => (s, [Respond http_StatusBadRequest None])
      | Some url =>
          (mkSystem (alter (AddFile url) t (heap s)) (Tasks s)
                    (concurrentTaskSema s) (goroutines s ++ [AddFile_check t]),
           [])
      end
  end.

(** One atomic step of a goroutine: the new heap and channel length, the
    goroutines that replace it, and the events. [None]: it cannot move. *)
Definition step_goroutine `{Externals} (cfg : Config) (env : Env) (g : Goroutine)
    (s : System) : option (list Task * nat * list Goroutine * list Event) :=
  match g with
  | AddFile_check t =>
      tk ← heap s !! t;
      if Z.of_nat (length (FileURLs tk)) >=? MaxFilesPerTask cfg then
        Some (alter SetResultURL t (heap s), concurrentTaskSema s,
              [AddFile_send t], [])
      else
        Some (heap s, concurrentTaskSema s, [], [Respond http_StatusAccepted None])
  | AddFile_send t =>
      (* [tm.concurrentTaskSema <- struct{}{}] waits while the buffer is full *)
      if Z.of_nat (concurrentTaskSema s) <? MaxConcurrentTasks cfg then
        Some (heap s, S (concurrentTaskSema s), [Go_Process t],
              [Launch t; Respond http_StatusAccepted None])
      else None
  | Go_Process t =>
      Some (alter Process_begin t (heap s), concurrentTaskSema s,
            [Process_running t], [])
  | Process_running t =>
      tk ← heap s !! t;
      match Process_files env (AllowedExtensions cfg) (ID tk) (FileURLs tk) with
      | inl (msg, _) =>
          Some (alter (setError msg) t (heap s), concurrentTaskSema s,
                [Go_release], [])
      | inr st =>
          Some (heap s, concurrentTaskSema s, [Process_finishing t st], [])
      end
  | Process_finishing t st =>
      Some (alter (Process_end (errors st)) t (heap s), concurrentTaskSema s,
            [Go_release], [])
  | Go_release =>
      match concurrentTaskSema s with
      | O => None
      | S n => Some (heap s, n, [], [])
      end
  end.

(** What happens next: a request arrives, or the scheduler runs goroutine
    [i] for one step in the world [env]. *)
Inductive Action :=
| CreateTaskReq (uuid : string)
| AddFileReq (taskID : string) (r_Body : option JSON)
| Run (i : nat) (env : Env).

Definition exec `{Externals} (cfg : Config) (a : Action) (s : System)
    : option (System * list Event) :=
  match a with
  | CreateTaskReq uuid => Some (CreateTaskHandler cfg uuid s)
  | AddFileReq taskID r_Body => Some (AddFileHandler taskID r_Body s)
  | Run i env =>
      g ← goroutines s !! i;
      '(h, n, gs, evs) ← step_goroutine cfg env g s;
      Some (mkSystem h (Tasks s) n
              (take i (goroutines s) ++ gs ++ drop (S i) (goroutines s)),
            evs)
  end.

Fixpoint run `{Externals} (cfg : Config) (acts : list Action) (s : System)
    : option (System * list Event) :=
  match acts with
  | [] => Some (s, [])
  | a :: rest =>
      '(s1, evs1) ← exec cfg a s;
      '(s2, evs2) ← run cfg rest s1;
      Some (s2, evs1 ++ evs2)
  end.

Definition reachable `{Externals} (cfg : Config) (s : System) : Prop :=
  ∃ s0 acts evs, NewTaskManager cfg = Some s0 ∧ run cfg acts s0 = Some (s, evs).

(** ** The run of the server, with the identifiers [uuid.New] returns

    What arrives from outside: a create-task request, an append request,
    or the scheduler running a goroutine. [NewTask] is the only caller of
    [uuid.New], and every task it returns is added to the heap, so the
    number of calls made so far is the length of the heap: the identifier
    a create-task request draws in the state [s] is
    [uuid_New (length (heap s))]. *)
Inductive Call :=
| CreateTaskCall
| AddFileCall (taskID : string) (r_Body : option JSON)
| Schedule (i : nat) (env : Env).

Definition action_of `{Externals} (c : Call) (s : System) : Action :=
  match c with
  | CreateTaskCall => CreateTaskReq (uuid_New (length (heap s)))
  | AddFileCall taskID r_Body => AddFileReq taskID r_Body
  | Schedule i env => Run i env
  end.

Fixpoint serve `{Externals} (cfg : Config) (calls : list Call) (s : System)
    : option (System * list Event) :=
  match calls with
  | [] => Some (s, [])
  | c :: rest =>
      '(s1, evs1) ← exec cfg (action_of c s) s;
      '(s2, evs2) ← serve cfg rest s1;
      Some (s2, evs1 ++ evs2)
  end.

(* ===================================================================== *)
(** * A reference instance of the parameters                             *)
(* ===================================================================== *)

(** The parameters instantiated, to run the code on concrete URLs.
    [Reference.url_Parse] follows [net/url.Parse] on URLs with a valid
    host and without percent escapes or plus signs (nothing is unescaped):
    the fragment is cut at the first [#], a control character is
    an error, the scheme is read as [getScheme] does, the query is cut at
    the first [?], a scheme followed by a rest without leading slash gives
    an opaque URL with an empty path, a colon in the first segment of a
    relative path is an error, and after [//] the authority runs to the
    next slash. [Reference.ParseQuery] follows [url.ParseQuery]: pairs are
    separated by [&], a pair holding a semicolon is dropped, key and value
    are separated by the first [=]. The URLs and allow-lists of the
    scenarios are ASCII, so the Unicode mapping of [strings.ToLower] is
    never reached on them; it is instantiated by the identity. The
    identifiers of [uuid.New] are instantiated by pairwise distinct
    strings. *)
Module Reference.

Fixpoint cut (c : ascii) (s : string) : string * option string :=
  match s with
  | EmptyString => (EmptyString, None)
  | String a r =>
      if Ascii.eqb a c then (EmptyString, Some r)
      else let '(x, y) := cut c r in (String a x, y)
  end.

Fixpoint contains_byte (c : ascii) (s : string) : bool :=
  match s with
  | EmptyString => false
  | String a r => Ascii.eqb a c || contains_byte c r
  end.

Fixpoint has_control (s : string) : bool :=
  match s with
  | EmptyString => false
  | String a r =>
      let n := N_of_ascii a in
      ((n <? 32) || (n =? 127))%N || has_control r
  end.

Definition is_letter (a : ascii) : bool :=
  let n := N_of_ascii a in
  (((65 <=? n) && (n <=? 90)) || ((97 <=? n) && (n <=? 122)))%N.

Definition is_scheme_tail (a : ascii) : bool :=
  let n := N_of_ascii a in
  (((48 <=? n) && (n <=? 57)) || (n =? 43) || (n =? 45) || (n =? 46))%N.

(** [getScheme]: [None] is the error [missing protocol scheme]; otherwise
    the scheme (reversed in [acc] while scanning) and the rest. *)
Fixpoint getScheme (s : string) (first : bool) (acc : string) (whole : string)
    : option (string * string) :=
  match s with
  | EmptyString => Some (EmptyString, whole)
  | String a r =>
      if is_letter a then getScheme r false (String a acc) whole
      else if is_scheme_tail a then
        if first then Some (EmptyString, whole)
        else getScheme r false (String a acc) whole
      else if Ascii.eqb a ":" then
        if first then None else Some (String.rev acc, r)
      else Some (EmptyString, whole)
  end.

Definition has_prefix (p s : string) : bool := String.prefix p s.

Fixpoint split_on (c : ascii) (s : string) (cur : string) : list string :=
  match s with
  | EmptyString => [String.rev cur]
  | String a r =>
      if Ascii.eqb a c then String.rev cur :: split_on c r EmptyString
      else split_on c r (String a cur)
  end.

Definition ParseQuery (query : string) : Values :=
  fold_left
    (λ (m : Values) (pair : string),
       if String.eqb pair "" then m
       else if contains_byte ";" pair then m
       else
         let '(key, value) := cut "=" pair in
         <[key := default [] (m !! key) ++ [default "" value]]> m)
    (split_on "&" query EmptyString) ∅.

Definition url_Parse (rawURL : string) : option URL :=
  let '(u, _) := cut "#" rawURL in
  if has_control u then None
  else
    '(scheme, rest) ← getScheme u true EmptyString u;
    let '(rest, rawQuery) := cut "?" rest in
    let q := ParseQuery (default "" rawQuery) in
    if negb (has_prefix "/" rest) && negb (String.eqb scheme "") then
      Some (mkURL "" q)
    else if negb (has_prefix "/" rest)
            && contains_byte ":" (fst (cut "/" rest)) then None
    else if has_prefix "//" rest
            && (negb (String.eqb scheme "") || negb (has_prefix "///" rest)) then
      match cut "/" (String.substring 2 (String.length rest - 2) rest) with
      | (_, Some p) => Some (mkURL (String "/" p) q)
      | (_, None) => Some (mkURL "" q)
      end
    else Some (mkURL rest q).

Fixpoint uuid_New (n : nat) : string :=
  match n with
  | O => "t"
  | S n => String "i" (uuid_New n)
  end.

Definition uuid_New_fresh : ∀ m n, uuid_New m = uuid_New n → m = n.
Proof.
  induction m as [|m IH]; intros [|n] Heq; simpl in Heq;
    [done|discriminate|discriminate|].
  injection Heq as Heq. by rewrite (IH n Heq).
Defined.

Definition externals : Externals :=
  Build_Externals url_Parse (λ id _ _, "/archives/" +:+ id +:+ ".zip")
    (λ s, s) uuid_New uuid_New_fresh.

(** A world in which every call succeeds: each URL answers 200 with the
    body [data], and [range] visits a map in the order of its listing. *)
Definition env_ok : Env :=
  mkEnv (λ _, None) (λ _ _, inr (mkResponse 200 "200 OK" "data"))
        (λ _ _, None) (λ _ _ _, None) (λ _ q, map_to_list q).

End Reference.

(** ** Scenarios

    Concrete configurations, worlds and schedules on which the code is
    run in the examples of Part 4. *)
Module Scenario.
Import Reference.

(** One file per task, one pass at a time. *)
Definition cfg1 : Config := mkConfig "8080" [".png"] 1 1.
(** Two files per task. *)
Definition cfg2 : Config := mkConfig "8080" [".png"] 2 1.

Definition url_a : string := "http://example.com/a.png".
Definition url_b : string := "http://example.com/b.png".
Definition url_query : string := "http://example.com/a.png?x=1".

(** The request body [{"url": url}]. *)
Definition body_of (url : string) : option JSON :=
  Some (JObject [("url", JString url)]).

(** The server at start, and the state and events a schedule leads to. *)
Definition start : System := mkSystem [] ∅ 0 [].

Definition state_after (cfg : Config) (acts : list Action) : System :=
  match @run externals cfg acts start with
  | Some (s, _) => s
  | None => start
  end.

Definition events_after (cfg : Config) (acts : list Action) : list Event :=
  match @run externals cfg acts start with
  | Some (_, evs) => evs
  | None => []
  end.

(** A world in which [os.Create] fails. *)
Definition env_no_create : Env :=
  mkEnv (λ _, Some "permission denied") (http_Get env_ok) (zip_Create env_ok)
        (io_Copy env_ok) (range_order env_ok).

(** A world in which every fetch fails in transport. *)
Definition env_no_network : Env :=
  mkEnv (os_Create env_ok) (λ _ _, inl "dial tcp: connection refused")
        (zip_Create env_ok) (io_Copy env_ok) (range_order env_ok).

(** A world in which every fetch is answered 201. *)
Definition env_201 : Env :=
  mkEnv (os_Create env_ok) (λ _ _, inr (mkResponse 201 "201 Created" "data"))
        (zip_Create env_ok) (io_Copy env_ok) (range_order env_ok).

(** A task is created, its only file is appended, the handler passes
    the length check and the send, and the pass runs to its end and
    releases the slot. *)
Definition first_pass : list Action :=
  [CreateTaskReq "t1"; AddFileReq "t1" (body_of url_a);
   Run 0 env_ok; Run 0 env_ok;
   Run 0 env_ok; Run 0 env_ok; Run 0 env_ok; Run 0 env_ok].

(** A second file is appended to the same task: length check, send, and
    the first step of the pass that is launched. *)
Definition second_append : list Action :=
  [AddFileReq "t1" (body_of url_b); Run 0 env_ok; Run 0 env_ok; Run 0 env_ok].

(** The second pass runs to its end in a world without network. *)
Definition second_pass_end : list Action :=
  [Run 0 env_no_network; Run 0 env_no_network; Run 0 env_no_network].

(** Two tasks are created; the first reaches the threshold and takes the
    only slot. *)
Definition first_task_in_flight : list Action :=
  [CreateTaskReq "t1"; CreateTaskReq "t2";
   AddFileReq "t1" (body_of url_a); Run 0 env_ok; Run 0 env_ok].

(** Then the second reaches the threshold and its handler passes the
    length check. *)
Definition second_task_at_send : list Action :=
  first_task_in_flight ++ [AddFileReq "t2" (body_of url_b); Run 1 env_ok].

Definition in_flight : System := state_after cfg1 first_task_in_flight.
Definition at_send : System := state_after cfg1 second_task_at_send.

(** The pass of the first task runs to its end and releases the slot;
    then the handler of the second task is scheduled. *)
Definition first_task_finishes : list Action :=
  [Run 0 env_ok; Run 0 env_ok; Run 0 env_ok; Run 0 env_ok; Run 0 env_ok].

(** The first task holds the only slot. *)
Definition slot_taken : list Action :=
  [CreateTaskReq "t1"; AddFileReq "t1" (body_of url_a);
   Run 0 env_ok; Run 0 env_ok].

Definition task_of (urls : list string) : Task :=
  mkTask "t1" StatusCreated urls "" "".

End Scenario.

(* ===================================================================== *)
(** * The properties, as definitions                                     *)
(* ===================================================================== *)

(** The extension the filter decides on, as the specification words it:
    the lower-cased extension of the path or, when that is empty, the
    first non-empty lower-cased extension among the parameter values in
    the order visited. [None]: no extension can be determined. *)
Definition lowered_ext `{Externals} (s : string) : string :=
  strings_ToLower (filepath_Ext s).

Definition first_nonempty (exts : list string) : option string :=
  head (filter (λ e, e ≠ "") exts).

Definition determined_extension `{Externals} (u : URL)
    (visited : list (string * list string)) : option string :=
  if decide (lowered_ext (Path u) = "") then
    first_nonempty (lowered_ext <$> mjoin (snd <$> visited))
  else Some (lowered_ext (Path u)).

(** The message of the file at position [i] when it fails on its own:
    extension not allowed, fetch failure, status other than 200, or a
    failure to create or to write the archive entry. *)
Definition file_error `{Externals} (env : Env) (allowedExtensions : list string)
    (i : nat) (fileURL : string) : option string :=
  if isAllowedExtension (range_order env i) fileURL allowedExtensions then
    match http_Get env i fileURL with
    | inl err =>
        Some ("failed to download file: " +:+ fileURL +:+ ", error: " +:+ err)
    | inr resp =>
        if StatusCode resp =? http_StatusOK then
          let fileName := filepath_Base fileURL in
          match zip_Create env i fileName with
          | Some err =>
              Some ("failed to create zip entry for " +:+ fileName +:+ ": " +:+ err)
          | None =>
              match io_Copy env i fileName (Body resp) with
              | Some (_, err) =>
                  Some ("failed to write to zip entry for " +:+ fileName
                        +:+ ": " +:+ err)
              | None => None
              end
          end
        else
          Some ("failed to download file: " +:+ fileURL +:+ ", status: "
                +:+ StatusText resp)
    end
  else Some ("file extension not allowed: " +:+ fileURL).

(** The messages of the files that fail, in submission order; the first
    URL of [urls] is at position [i]. *)
Fixpoint file_errors `{Externals} (env : Env) (allowedExtensions : list string)
    (i : nat) (urls : list string) : list string :=
  match urls with
  | [] => []
  | fileURL :: rest =>
      option_list (file_error env allowedExtensions i fileURL)
      ++ file_errors env allowedExtensions (S i) rest
  end.

(** An effect that touches a file of the task: filtering, fetching,
    writing an entry. *)
Definition touches_file (e : Effect) : bool :=
  match e with
  | FilterURL _ | HttpGet _ | ZipCreate _ | IoCopy _ => true
  | Log _ | OsCreate _ => false
  end.

(** The moves of [Status] one step of the system can make: a task stays
    [StatusCreated] or leaves it for [StatusProcessing], and never comes
    back to it. *)
Definition status_move (old new : TaskStatus) : bool :=
  match old, new with
  | StatusCreated, StatusCreated | StatusCreated, StatusProcessing => true
  | StatusCreated, _ => false
  | _, StatusCreated => false
  | _, _ => true
  end.

(** The identifiers [uuid.New] draws during a run, and the identifiers
    the 201 responses carry. *)
Definition drawn_uuid (a : Action) : option string :=
  match a with CreateTaskReq uuid => Some uuid | _ => None end.

Definition created_id (e : Event) : option string :=
  match e with
  | Respond code (Some t) =>
      if code =? http_StatusCreated then Some (ID t) else None
  | _ => None
  end.

(** The passes launched for the task at [t] among the events of a run. *)
Definition is_launch (t : nat) (e : Event) : bool :=
  match e with Launch t' => Nat.eqb t' t | Respond _ _ => false end.

Definition launches (t : nat) (evs : list Event) : nat :=
  length (List.filter (is_launch t) evs).

(** What one step of the system can do to the task at address [addr]:
    nothing, or one of the writes of the code. The two writes that end a
    pass are made by a goroutine that is inside [Process] for that task. *)
Inductive task_step `{Externals} (s : System) (addr : nat) : Task → Task → Prop :=
| ts_same t : task_step s addr t t
| ts_AddFile url t : task_step s addr t (AddFile url t)
| ts_SetResultURL t : task_step s addr t (SetResultURL t)
| ts_begin t : task_step s addr t (Process_begin t)
| ts_setError msg t :
    Process_running addr ∈ goroutines s → task_step s addr t (setError msg t)
| ts_end st t :
    Process_finishing addr st ∈ goroutines s →
    task_step s addr t (Process_end (errors st) t).

(** The threshold of [AddFileHandler] is reached for the task [tk]. *)
Definition at_threshold (cfg : Config) (tk : Task) : Prop :=
  MaxFilesPerTask cfg ≤ Z.of_nat (length (FileURLs tk)).

(** What holds of a goroutine in a reachable state: its task exists; past
    the length check the threshold is reached; inside [Process] the status
    is no longer [StatusCreated]. *)
Definition goroutine_ok (cfg : Config) (h : list Task) (g : Goroutine) : Prop :=
  match g with
  | AddFile_check t => (t < length h)%nat
  | AddFile_send t | Go_Process t =>
      ∃ tk, h !! t = Some tk ∧ at_threshold cfg tk
  | Process_running t | Process_finishing t _ =>
      ∃ tk, h !! t = Some tk ∧ at_threshold cfg tk ∧ Status tk ≠ StatusCreated
  | Go_release => True
  end.

(** The heap only grows: a task stays at its address, keeps its
    identifier, has its file list extended, and does not come back to
    [StatusCreated]. *)
Definition heap_grows (h h' : list Task) : Prop :=
  ∀ addr t, h !! addr = Some t →
    ∃ t', h' !! addr = Some t' ∧ ID t' = ID t
          ∧ FileURLs t `prefix_of` FileURLs t'
          ∧ (Status t ≠ StatusCreated → Status t' ≠ StatusCreated).

(** The invariant of the reachable states: the goroutines are in order,
    and [tm.Tasks] maps an identifier to a task that carries it. *)
Definition Inv (cfg : Config) (s : System) : Prop :=
  Forall (goroutine_ok cfg (heap s)) (goroutines s)
  ∧ ∀ id t, Tasks s !! id = Some t → ∃ tk, heap s !! t = Some tk ∧ ID tk = id.

(* ===================================================================== *)
(** * The remaining handlers and the cleanup sweep                       *)
(* ===================================================================== *)

(** [GetTaskStatusHandler]: the answer is 404, or 200 (the status written
    by the first write of the encoder) with the task the map points to. *)
Definition GetTaskStatusHandler (taskID : string) (s : System) : list Event :=
  match Tasks s !! taskID with
  | None => [Respond http_StatusNotFound None]
  | Some t => [Respond http_StatusOK (heap s !! t)]
  end.

(** [strings.Contains]: [substr] is a prefix of [s] at some position. *)
Fixpoint strings_Contains (s substr : string) : bool :=
  String.prefix substr s
  || match s with
     | EmptyString => false
     | String _ rest => strings_Contains rest substr
     end.

(** What [os.Stat] answers, as far as the handler tells the cases apart:
    no error, an error for which [os.IsNotExist] holds, another error. *)
Inductive StatResult := StatFound | StatNotExist | StatOtherError.

(** What [ServeArchiveHandler] does, in order: the call of [os.Stat], an
    [http.Error] with its status code, the call of [http.ServeFile] on a
    path with the two headers set before it. *)
Inductive ArchiveEffect :=
| OsStat (name : string)
| HttpError (code : Z) (msg : string)
| ServeFile (name : string) (contentType contentDisposition : string).

Definition double_quote : string := String (ascii_of_N 34) EmptyString.

(** [ServeArchiveHandler]; [os_Stat] is the file system. *)
Definition ServeArchiveHandler (os_Stat : string → StatResult)
    (filename : string) : list ArchiveEffect :=
  if strings_Contains filename ".." || strings_Contains filename "/" then
    [HttpError http_StatusBadRequest "invalid filename"]
  else
    let filePath := filename in
    match os_Stat filePath with
    | StatNotExist =>
        [OsStat filePath; HttpError http_StatusNotFound "archive not found"]
    | StatFound | StatOtherError =>
        [OsStat filePath;
         ServeFile filePath "application/zip"
           ("attachment; filename=" +:+ double_quote +:+ filename
            +:+ double_quote)]
    end.

(** [os.FileInfo], as the sweep reads it; times and durations are in
    nanoseconds. *)
Record FileInfo := mkFileInfo {
  IsDir : bool;
  ModTime : Z
}.

(** One tick of [cleanupOldArchives]: [filepath.Walk] calls the function
    once per entry, with an error or with the entry's [FileInfo]; the
    function returns the error, which stops the walk, or removes the
    entry when it is a regular file with extension ".zip" last modified
    more than [maxAge] ago. [clock i] is [time.Now] at the [i]-th call.
    The result is the list of the paths given to [os.Remove]. *)
Fixpoint cleanup_walk (maxAge : Z) (clock : nat → Z) (i : nat)
    (visited : list (string * (string + FileInfo))) : list string :=
  match visited with
  | [] => []
  | (path, inl err) :: _ => []
  | (path, inr info) :: rest =>
      (if negb (IsDir info) && String.eqb (filepath_Ext path) ".zip" then
         if clock i - ModTime info >? maxAge then [path] else []
       else [])
      ++ cleanup_walk maxAge clock (S i) rest
  end.

(* ===================================================================== *)
(** * Further properties, as definitions                                 *)
(* ===================================================================== *)

(** The URLs a trace gives to the filter and to [http.Get], in order. *)
Definition filtered_url (e : Effect) : option string :=
  match e with FilterURL u => Some u | _ => None end.

Definition fetched_url (e : Effect) : option string :=
  match e with HttpGet u => Some u | _ => None end.

(** The URLs of [urls] the filter lets through; the first is at position
    [i]. *)
Fixpoint allowed_urls `{Externals} (env : Env) (allowedExtensions : list string)
    (i : nat) (urls : list string) : list string :=
  match urls with
  | [] => []
  | fileURL :: rest =>
      (if isAllowedExtension (range_order env i) fileURL allowedExtensions
       then [fileURL] else [])
      ++ allowed_urls env allowedExtensions (S i) rest
  end.

(** The file at position [i] is fetched and written without any error:
    the answer it is written from. *)
Definition file_success `{Externals} (env : Env) (allowedExtensions : list string)
    (i : nat) (fileURL : string) (resp : Response) : Prop :=
  isAllowedExtension (range_order env i) fileURL allowedExtensions = true
  ∧ http_Get env i fileURL = inr resp
  ∧ StatusCode resp = http_StatusOK
  ∧ zip_Create env i (filepath_Base fileURL) = None
  ∧ io_Copy env i (filepath_Base fileURL) (Body resp) = None.

(** No byte of the string is a dot or a path separator. *)
Fixpoint plain_name (s : string) : bool :=
  match s with
  | EmptyString => true
  | String c rest =>
      negb (IsPathSeparator c) && negb (Ascii.eqb c ".") && plain_name rest
  end.

(** An allow-list entry the filter can ever match: the empty string, or
    what [strings.ToLower] returns for a dot followed by bytes that are
    neither dots nor separators. *)
Definition live_entry `{Externals} (e : string) : Prop :=
  e = "" ∨ ∃ r, plain_name r = true ∧ e = strings_ToLower (String "." r).

(** No byte of the string is a path separator. *)
Fixpoint no_separator (s : string) : bool :=
  match s with
  | EmptyString => true
  | String c rest => negb (IsPathSeparator c) && no_separator rest
  end.

(** A goroutine that holds a slot: from the [go func] to its deferred
    receive. *)
Definition in_pass (g : Goroutine) : bool :=
  match g with
  | Go_Process _ | Process_running _ | Process_finishing _ _ | Go_release => true
  | AddFile_check _ | AddFile_send _ => false
  end.

Definition slots (l : list Goroutine) : nat := length (List.filter in_pass l).

Definition passes (s : System) : nat := slots (goroutines s).

(** A request, as opposed to a step of a goroutine, and the answer a
    server without any slot gives to it. *)
Definition is_request (a : Action) : bool :=
  match a with Run _ _ => false | _ => true end.

Definition no_slot_answer (a : Action) : Event :=
  match a with
  | CreateTaskReq _ => Respond http_StatusServiceUnavailable None
  | _ => Respond http_StatusNotFound None
  end.

(** What the action [a], run in the state [s], writes to the task at
    [addr], with the request or the goroutine that makes the write. *)
Inductive task_write `{Externals} (cfg : Config) (a : Action) (s : System)
    (addr : nat) : Task → Task → Prop :=
| tw_same t : task_write cfg a s addr t t
| tw_AddFile taskID r_Body url t :
    a = AddFileReq taskID r_Body →
    Tasks s !! taskID = Some addr →
    Decode_body r_Body = Some url →
    task_write cfg a s addr t (AddFile url t)
| tw_SetResultURL i env t :
    a = Run i env →
    goroutines s !! i = Some (AddFile_check addr) →
    at_threshold cfg t →
    task_write cfg a s addr t (SetResultURL t)
| tw_begin i env t :
    a = Run i env →
    goroutines s !! i = Some (Go_Process addr) →
    task_write cfg a s addr t (Process_begin t)
| tw_setError i env msg tr t :
    a = Run i env →
    goroutines s !! i = Some (Process_running addr) →
    Process_files env (AllowedExtensions cfg) (ID t) (FileURLs t) = inl (msg, tr) →
    task_write cfg a s addr t (setError msg t)
| tw_end i env st t :
    a = Run i env →
    goroutines s !! i = Some (Process_finishing addr st) →
    task_write cfg a s addr t (Process_end (errors st) t).

(** The goroutine is inside a pass for the task at [addr]. *)
Definition in_pass_of (addr : nat) (g : Goroutine) : Prop :=
  match g with
  | Go_Process t | Process_running t | Process_finishing t _ => t = addr
  | _ => False
  end.

(** ** Further scenarios *)
Module MoreScenarios.
Import Reference Scenario.

(** No slot at all. *)
Definition cfg0 : Config := mkConfig "8080" [".png"] 1 0.

Definition url_exe : string := "http://example.com/b.exe".
Definition url_upper : string := "http://example.com/photo.PNG".
Definition url_txt : string := "http://example.com/notes.txt?v=a.png".

(** A task with one file, below the threshold of [cfg2]. *)
Definition one_of_two : list Action :=
  [CreateTaskReq "t1"; AddFileReq "t1" (body_of url_a); Run 0 env_ok].

(** The first task of [first_task_in_flight], once its file is appended
    and the result locator set. *)
Definition task_in_flight : Task :=
  mkTask "t1" StatusCreated [url_a] "/archives/t1.zip" "".

(** A first pass in a world without network, then a second file is
    appended. *)
Definition failing_pass_then_append : list Action :=
  [CreateTaskReq "t1"; AddFileReq "t1" (body_of url_a);
   Run 0 env_ok; Run 0 env_ok;
   Run 0 env_no_network; Run 0 env_no_network; Run 0 env_no_network;
   Run 0 env_no_network;
   AddFileReq "t1" (body_of url_b)].

(** The same, followed by the second pass, from the threshold check to
    the release of the slot, in a world in which every call succeeds. *)
Definition failing_then_clean : list Action :=
  failing_pass_then_append ++ replicate 6 (Run 0 env_ok).

(** The state of the task when that second pass starts. *)
Definition task_before_clean_pass : Task :=
  mkTask "t1" StatusDone [url_a; url_b] "/archives/t1.zip"
    "failed to download file: http://example.com/a.png, error: dial tcp: connection refused".

(** A file system in which every name exists. *)
Definition stat_found : string → StatResult := λ _, StatFound.

(** A walk that visits the working directory and then one archive, last
    modified at time 0, seven hundred seconds later; the age limit is ten
    minutes, as [main] sets it. *)
Definition ten_minutes : Z := 600 * 1000000000.
Definition late_clock : nat → Z := λ _, 700 * 1000000000.
Definition one_archive : list (string * (string + FileInfo)) :=
  [(".", inr (mkFileInfo true 0));
   (zipFileName_of "t1", inr (mkFileInfo false 0))].

End MoreScenarios.

(* ===================================================================== *)
(** * Part 4: theorems                                                   *)
(* ===================================================================== *)

(** ** The processing pass *)

Section Pass.
Context `{Externals}.
Implicit Types (env : Env) (t : Task) (st : PassState).

Lemma Process_file_errors env allowed id i fileURL st :
  errors (Process_file env allowed id i fileURL st)
  = errors st ++ option_list (file_error env allowed i fileURL).
Proof.
  unfold Process_file, file_error.
  destruct (isAllowedExtension _ _ _); simpl; [|done].
  destruct (http_Get env i fileURL) as [err|resp]; simpl; [done|].
  destruct (StatusCode resp =? http_StatusOK); simpl; [|done].
  destruct (zip_Create env i _); simpl; [done|].
  destruct (io_Copy env i _ _) as [[written err]|]; simpl; [done|].
  by rewrite app_nil_r.
Qed.

Lemma Process_loop_errors env allowed id urls : ∀ i st,
  errors (Process_loop env allowed id i urls st)
  = errors st ++ file_errors env allowed i urls.
Proof.
  induction urls as [|u urls IH]; intros i st; simpl.
  - by rewrite app_nil_r.
  - by rewrite IH, Process_file_errors, <-app_assoc.
Qed.

Lemma file_errors_length env allowed urls : ∀ i,
  (length (file_errors env allowed i urls) ≤ length urls)%nat.
Proof.
  induction urls as [|u urls IH]; intros i; simpl; [lia|].
  rewrite length_app. specialize (IH (S i)).
  destruct (file_error env allowed i u); simpl; lia.
Qed.

Lemma Process_files_created env allowed id urls :
  os_Create env (zipFileName_of id) = None →
  ∃ st, Process_files env allowed id urls = inr st
        ∧ errors st = file_errors env allowed 0 urls.
Proof.
  intros Hc. unfold Process_files. rewrite Hc.
  eexists; split; [done|]. by rewrite Process_loop_errors.
Qed.

Lemma Process_end_fields errs t :
  Status (Process_end errs t) = StatusDone
  ∧ ResultURL (Process_end errs t) = "/archives/" +:+ ID t +:+ ".zip"
  ∧ ErrorDetails (Process_end errs t)
    = (if decide (errs = []) then ErrorDetails t else strings_Join errs "; ")
  ∧ ID (Process_end errs t) = ID t
  ∧ FileURLs (Process_end errs t) = FileURLs t.
Proof.
  unfold Process_end. destruct errs as [|e errs]; simpl; done.
Qed.


(** C5. When the archive cannot be created the pass sets status Error and
    the error details to the creation-failure message, and stops: its
    trace is the creation attempt between two log lines, so no URL is
    filtered or fetched and no entry is written; the file list is as it
    was. *)
Theorem Process_create_failure_is_Error env allowed t err :
  os_Create env (zipFileName_of (ID t)) = Some err →
  let r := Process env allowed t in
  Status (task r) = StatusError
  ∧ ErrorDetails (task r) = "failed to create zip file: " +:+ err
  ∧ archive r = None
  ∧ trace r = [Log ("Processing task " +:+ ID t);
               OsCreate (ID t +:+ ".zip");
               Log ("Failed to create zip file for task " +:+ ID t +:+ ": " +:+ err)]
  ∧ Forall (λ e, touches_file e = false) (trace r)
  ∧ FileURLs (task r) = FileURLs t ∧ ResultURL (task r) = ResultURL t
  ∧ ID (task r) = ID t.
Proof.
  intros Hc r. subst r. unfold Process, Process_files. simpl.
  rewrite Hc. simpl. repeat split; try done.
  repeat constructor.
Qed.

(** C10. A fetch that returns a response whose status code is not 200
    (201 and 206 included) is a failure of that file: the iteration
    appends the "failed to download" message with the status text, writes
    no entry, and its trace ends with the fetch and the log line. *)
Theorem Process_file_status_not_200 env allowed id i fileURL st resp :
  isAllowedExtension (range_order env i) fileURL allowed = true →
  http_Get env i fileURL = inr resp →
  StatusCode resp ≠ 200 →
  let st' := Process_file env allowed id i fileURL st in
  errors st' = errors st ++ ["failed to download file: " +:+ fileURL
                             +:+ ", status: " +:+ StatusText resp]
  ∧ entries st' = entries st
  ∧ effects st' = effects st
      ++ [Log ("Processing file " +:+ fileURL +:+ " for task " +:+ id);
          FilterURL fileURL; HttpGet fileURL;
          Log ("Failed to download file " +:+ fileURL +:+ ", status: "
               +:+ StatusText resp)].
Proof.
  intros Hal Hget Hcode st'. subst st'. unfold Process_file.
  rewrite Hal, Hget. simpl.
  assert ((StatusCode resp =? http_StatusOK) = false) as ->
    by (apply Z.eqb_neq; done).
  simpl. repeat split; try done.
  by rewrite <-!app_assoc.
Qed.

(** An iteration adds at most one entry, named by [filepath.Base] of the
    URL string as submitted. *)
Lemma Process_file_entry env allowed id i fileURL st :
  entries (Process_file env allowed id i fileURL st) = entries st
  ∨ ∃ data, entries (Process_file env allowed id i fileURL st)
            = entries st ++ [(filepath_Base fileURL, data)].
Proof.
  unfold Process_file.
  destruct (isAllowedExtension _ _ _); simpl; [|by left].
  destruct (http_Get env i fileURL) as [err|resp]; simpl; [by left|].
  destruct (StatusCode resp =? http_StatusOK); simpl; [|by left].
  destruct (zip_Create env i _); simpl; [by left|].
  destruct (io_Copy env i _ _) as [[written err]|]; simpl; right; by eexists.
Qed.

End Pass.

(** ** The task manager *)

Section Manager.
Context `{Externals}.
Variable cfg : Config.
Implicit Types (s : System) (a : Action) (g : Goroutine) (t : Task).

Lemma status_move_refl st : status_move st st = true.
Proof. by destruct st. Qed.

Lemma alter_lookup_cases (f : Task → Task) (h : list Task) (a0 addr : nat) t :
  h !! addr = Some t →
  (addr = a0 ∧ alter f a0 h !! addr = Some (f t))
  ∨ (addr ≠ a0 ∧ alter f a0 h !! addr = Some t).
Proof.
  intros Hl. destruct (decide (addr = a0)) as [->|Hne].
  - left. split; [done|]. by rewrite list_lookup_alter_eq, Hl.
  - right. split; [done|]. by rewrite list_lookup_alter_ne.
Qed.

(** Every step acts on each task by one of the writes of [task_step]. *)
Lemma exec_task_step a s s' evs addr t :
  exec cfg a s = Some (s', evs) →
  heap s !! addr = Some t →
  ∃ t', heap s' !! addr = Some t' ∧ task_step s addr t t'.
Proof.
  intros Hex Hl. destruct a as [uuid|taskID body|i env]; simpl in Hex.
  - unfold CreateTaskHandler in Hex.
    destruct (_ >=? _); simplify_eq; simpl.
    + eexists; split; [done|constructor].
    + exists t. split; [by apply lookup_app_l_Some|constructor].
  - unfold AddFileHandler in Hex.
    destruct (Tasks s !! taskID) as [a0|]; [|simplify_eq; eauto using task_step].
    destruct (Decode_body body) as [url|]; simplify_eq; simpl;
      [|eauto using task_step].
    destruct (alter_lookup_cases (AddFile url) _ a0 _ _ Hl) as [[-> ->]|[_ ->]];
      eauto using task_step.
  - destruct (goroutines s !! i) as [g|] eqn:Hg; simpl in Hex; [|done].
    destruct (step_goroutine cfg env g s) as [[[[h n] gs] evs']|] eqn:Hst;
      simpl in Hex; [|done].
    simplify_eq; simpl.
    apply list_elem_of_lookup_2 in Hg.
    destruct g as [a0|a0|a0|a0|a0 st|]; simpl in Hst.
    + destruct (heap s !! a0) as [tk|]; simpl in Hst; [|done].
      destruct (_ >=? _); simplify_eq; [|eauto using task_step].
      destruct (alter_lookup_cases SetResultURL _ a0 _ _ Hl) as [[-> ->]|[_ ->]];
        eauto using task_step.
    + destruct (_ <? _); simplify_eq; eauto using task_step.
    + simplify_eq.
      destruct (alter_lookup_cases Process_begin _ a0 _ _ Hl) as [[-> ->]|[_ ->]];
        eauto using task_step.
    + destruct (heap s !! a0) as [tk|]; simpl in Hst; [|done].
      destruct (Process_files _ _ _ _) as [[msg tr]|st]; simplify_eq;
        [|eauto using task_step].
      destruct (alter_lookup_cases (setError msg) _ a0 _ _ Hl) as [[-> ->]|[_ ->]];
        eauto using task_step.
    + simplify_eq.
      destruct (alter_lookup_cases (Process_end (errors st)) _ a0 _ _ Hl)
        as [[-> ->]|[_ ->]]; eauto using task_step.
    + destruct (concurrentTaskSema s); simplify_eq; eauto using task_step.
Qed.

(** A write keeps the identifier, extends the file list and never sets
    the status back to [StatusCreated]. *)
Lemma task_step_mono s addr t t' :
  task_step s addr t t' →
  ID t' = ID t
  ∧ FileURLs t `prefix_of` FileURLs t'
  ∧ (Status t ≠ StatusCreated → Status t' ≠ StatusCreated).
Proof.
  destruct 1; simpl; split_and!; try done.
  - by apply prefix_app_r.
  - unfold Process_end. by destruct (_ <? _)%nat.
  - unfold Process_end. by destruct (_ <? _)%nat.
Qed.

Lemma at_threshold_prefix t t' :
  FileURLs t `prefix_of` FileURLs t' → at_threshold cfg t → at_threshold cfg t'.
Proof.
  intros Hp%prefix_length. unfold at_threshold. lia.
Qed.

Lemma exec_heap_grows a s s' evs :
  exec cfg a s = Some (s', evs) → heap_grows (heap s) (heap s').
Proof.
  intros Hex addr t Hl.
  destruct (exec_task_step _ _ _ _ _ _ Hex Hl) as (t' & Hl' & Hstep).
  exists t'. split; [done|]. by eapply task_step_mono.
Qed.

Lemma heap_grows_refl h : heap_grows h h.
Proof. intros addr t Hl. exists t. by split_and!. Qed.

Lemma heap_grows_trans h1 h2 h3 :
  heap_grows h1 h2 → heap_grows h2 h3 → heap_grows h1 h3.
Proof.
  intros H12 H23 addr t Hl.
  destruct (H12 _ _ Hl) as (t2 & Hl2 & Hid2 & Hp2 & Hs2).
  destruct (H23 _ _ Hl2) as (t3 & Hl3 & Hid3 & Hp3 & Hs3).
  exists t3. split_and!; [done|congruence|by etrans|auto].
Qed.

Lemma heap_grows_length h h' addr :
  heap_grows h h' → (addr < length h)%nat → (addr < length h')%nat.
Proof.
  intros Hg [t Hl]%lookup_lt_is_Some_2.
  destruct (Hg _ _ Hl) as (t' & Hl' & _). by eapply lookup_lt_Some.
Qed.

Lemma goroutine_ok_grows h h' g :
  heap_grows h h' → goroutine_ok cfg h g → goroutine_ok cfg h' g.
Proof.
  intros Hg. destruct g as [a0|a0|a0|a0|a0 st|]; simpl; [| | | | |done].
  - by apply heap_grows_length.
  - intros (tk & Hl & Hth). destruct (Hg _ _ Hl) as (t' & Hl' & _ & Hp & _).
    exists t'. eauto using at_threshold_prefix.
  - intros (tk & Hl & Hth). destruct (Hg _ _ Hl) as (t' & Hl' & _ & Hp & _).
    exists t'. eauto using at_threshold_prefix.
  - intros (tk & Hl & Hth & Hs). destruct (Hg _ _ Hl) as (t' & Hl' & _ & Hp & Hs').
    exists t'. eauto using at_threshold_prefix.
  - intros (tk & Hl & Hth & Hs). destruct (Hg _ _ Hl) as (t' & Hl' & _ & Hp & Hs').
    exists t'. eauto using at_threshold_prefix.
Qed.

(** The goroutines a step puts in place of the one it ran are in order
    with the new heap. *)
Lemma step_goroutine_ok env g s h n gs evs :
  goroutine_ok cfg (heap s) g →
  step_goroutine cfg env g s = Some (h, n, gs, evs) →
  Forall (goroutine_ok cfg h) gs.
Proof.
  intros Hok Hst. destruct g as [a0|a0|a0|a0|a0 st|]; simpl in *.
  - destruct (heap s !! a0) as [tk|] eqn:Hl; simpl in Hst; [|done].
    destruct (_ >=? _) eqn:Hge; simplify_eq; [|constructor].
    repeat constructor. exists (SetResultURL tk). split.
    + by rewrite list_lookup_alter_eq, Hl.
    + unfold at_threshold. simpl. lia.
  - destruct (_ <? _); simplify_eq. by repeat constructor.
  - simplify_eq. destruct Hok as (tk & Hl & Hth).
    repeat constructor. exists (Process_begin tk). split_and!; [|done|done].
    by rewrite list_lookup_alter_eq, Hl.
  - destruct Hok as (tk & Hl & Hth & Hs). rewrite Hl in Hst; simpl in Hst.
    destruct (Process_files _ _ _ _) as [[msg tr]|st]; simplify_eq;
      repeat constructor.
    exists tk. by split_and!.
  - simplify_eq. by repeat constructor.
  - destruct (concurrentTaskSema s); simplify_eq. constructor.
Qed.

Lemma Inv_exec a s s' evs :
  Inv cfg s → exec cfg a s = Some (s', evs) → Inv cfg s'.
Proof.
  intros [Hgs Hts] Hex.
  pose proof (exec_heap_grows _ _ _ _ Hex) as Hgrow.
  assert (Forall (goroutine_ok cfg (heap s')) (goroutines s)) as Hgs'.
  { eapply Forall_impl; [exact Hgs|]. intros g. by apply goroutine_ok_grows. }
  assert (∀ id (addr : nat), Tasks s !! id = Some addr →
            ∃ tk, heap s' !! addr = Some tk ∧ ID tk = id) as Hts'.
  { intros id addr (tk & Hl & Hid)%Hts.
    destruct (Hgrow _ _ Hl) as (t' & Hl' & Hid' & _). exists t'.
    split; [done|congruence]. }
  destruct a as [uuid|taskID body|i env]; simpl in Hex.
  - unfold CreateTaskHandler in Hex.
    destruct (_ >=? _); simplify_eq; [done|]. split; [done|].
    cbn [heap Tasks NewTask ID] in *.
    intros id addr. destruct (decide (uuid = id)) as [->|Hne].
    + rewrite lookup_insert_eq. intros [= <-].
      exists (NewTask id). split; [|done]. by apply list_lookup_middle.
    + rewrite lookup_insert_ne by done. apply Hts'.
  - unfold AddFileHandler in Hex.
    destruct (Tasks s !! taskID) as [a0|] eqn:Ha0; [|by simplify_eq].
    destruct (Decode_body body) as [url|]; simplify_eq; [|done].
    split; cbn [heap goroutines Tasks] in *; [|done].
    apply Forall_app. split; [done|]. repeat constructor.
    cbn [goroutine_ok]. destruct (Hts' _ _ Ha0) as (tk & Hl & _).
    by eapply lookup_lt_Some.
  - destruct (goroutines s !! i) as [g|] eqn:Hg; simpl in Hex; [|done].
    destruct (step_goroutine cfg env g s) as [[[[h n] gs] evs']|] eqn:Hst;
      simpl in Hex; [|done].
    simplify_eq; cbn [heap goroutines Tasks] in *. split; [|done].
    apply Forall_app. split; [by apply Forall_take|].
    apply Forall_app. split; [|by apply Forall_drop].
    eapply step_goroutine_ok; [|done]. by eapply Forall_lookup_1.
Qed.

Lemma Inv_run acts : ∀ s s' evs,
  Inv cfg s → run cfg acts s = Some (s', evs) → Inv cfg s'.
Proof.
  induction acts as [|a acts IH]; intros s s' evs HI Hrun; simpl in Hrun.
  - by simplify_eq.
  - destruct (exec cfg a s) as [[s1 evs1]|] eqn:Hex; simpl in Hrun; [|done].
    destruct (run cfg acts s1) as [[s2 evs2]|] eqn:Hr; simpl in Hrun; [|done].
    simplify_eq. eauto using Inv_exec.
Qed.

Lemma Inv_NewTaskManager s0 : NewTaskManager cfg = Some s0 → Inv cfg s0.
Proof.
  unfold NewTaskManager. destruct (_ <? _); intros; simplify_eq.
  split; [constructor|]. intros id t Hl. cbn [Tasks] in Hl.
  by rewrite lookup_empty in Hl.
Qed.

Lemma reachable_Inv s : reachable cfg s → Inv cfg s.
Proof.
  intros (s0 & acts & evs & Hnew & Hrun).
  eauto using Inv_run, Inv_NewTaskManager.
Qed.

Lemma run_heap_grows acts : ∀ s s' evs,
  run cfg acts s = Some (s', evs) → heap_grows (heap s) (heap s').
Proof.
  induction acts as [|a acts IH]; intros s s' evs Hrun; simpl in Hrun.
  - simplify_eq. apply heap_grows_refl.
  - destruct (exec cfg a s) as [[s1 evs1]|] eqn:Hex; simpl in Hrun; [|done].
    destruct (run cfg acts s1) as [[s2 evs2]|] eqn:Hr; simpl in Hrun; [|done].
    simplify_eq. eauto using heap_grows_trans, exec_heap_grows.
Qed.

Lemma run_app acts1 : ∀ acts2 s s1 evs1 s2 evs2,
  run cfg acts1 s = Some (s1, evs1) →
  run cfg acts2 s1 = Some (s2, evs2) →
  run cfg (acts1 ++ acts2) s = Some (s2, evs1 ++ evs2).
Proof.
  induction acts1 as [|a acts1 IH]; intros acts2 s s1 evs1 s2 evs2 H1 H2;
    simpl in *.
  - by simplify_eq.
  - destruct (exec cfg a s) as [[s' evs']|]; simpl in *; [|done].
    destruct (run cfg acts1 s') as [[s'' evs'']|] eqn:Hr; simpl in *; [|done].
    simplify_eq. erewrite IH by done. simpl. by rewrite app_assoc.
Qed.

Lemma reachable_run s acts s' evs :
  reachable cfg s → run cfg acts s = Some (s', evs) → reachable cfg s'.
Proof.
  intros (s0 & acts0 & evs0 & Hnew & Hrun0) Hrun.
  exists s0, (acts0 ++ acts), (evs0 ++ evs). eauto using run_app.
Qed.

(** *** Running the goroutine that was started last *)

Lemma Run_last env s gs g :
  goroutines s = gs ++ [g] →
  exec cfg (Run (length gs) env) s
  = '(h, n, gs', evs) ← step_goroutine cfg env g s;
    Some (mkSystem h (Tasks s) n (gs ++ gs'), evs).
Proof.
  intros Hgs. simpl. rewrite Hgs.
  rewrite list_lookup_middle by done. simpl.
  destruct (step_goroutine cfg env g s) as [[[[h n] gs'] evs]|]; simpl; [|done].
  rewrite take_app_length.
  rewrite drop_ge by (rewrite length_app; simpl; lia).
  by rewrite app_nil_r.
Qed.

Lemma AddFileHandler_records s taskID body addr url :
  Tasks s !! taskID = Some addr →
  Decode_body body = Some url →
  exec cfg (AddFileReq taskID body) s
  = Some (mkSystem (alter (AddFile url) addr (heap s)) (Tasks s)
            (concurrentTaskSema s) (goroutines s ++ [AddFile_check addr]), []).
Proof. intros Ht Hd. simpl. unfold AddFileHandler. by rewrite Ht, Hd. Qed.

Lemma AddFile_check_at_threshold env s addr tk :
  heap s !! addr = Some tk →
  at_threshold cfg tk →
  step_goroutine cfg env (AddFile_check addr) s
  = Some (alter SetResultURL addr (heap s), concurrentTaskSema s,
          [AddFile_send addr], []).
Proof.
  intros Hl Hth. simpl. rewrite Hl. simpl.
  assert ((Z.of_nat (length (FileURLs tk)) >=? MaxFilesPerTask cfg) = true) as ->
    by (apply Z.geb_le; exact Hth).
  done.
Qed.

Lemma AddFile_check_below_threshold env s addr tk :
  heap s !! addr = Some tk →
  ¬ at_threshold cfg tk →
  step_goroutine cfg env (AddFile_check addr) s
  = Some (heap s, concurrentTaskSema s, [], [Respond http_StatusAccepted None]).
Proof.
  intros Hl Hth. simpl. rewrite Hl. simpl.
  assert ((Z.of_nat (length (FileURLs tk)) >=? MaxFilesPerTask cfg) = false) as ->
    by (rewrite Z.geb_leb; apply Z.leb_gt; unfold at_threshold in Hth; lia).
  done.
Qed.

Lemma AddFile_send_full env s addr :
  MaxConcurrentTasks cfg ≤ Z.of_nat (concurrentTaskSema s) →
  step_goroutine cfg env (AddFile_send addr) s = None.
Proof.
  intros Hfull. simpl.
  by assert ((Z.of_nat (concurrentTaskSema s) <? MaxConcurrentTasks cfg) = false)
    as -> by (apply Z.ltb_ge; done).
Qed.

Lemma AddFile_send_free env s addr :
  Z.of_nat (concurrentTaskSema s) < MaxConcurrentTasks cfg →
  step_goroutine cfg env (AddFile_send addr) s
  = Some (heap s, S (concurrentTaskSema s), [Go_Process addr],
          [Launch addr; Respond http_StatusAccepted None]).
Proof.
  intros Hfree. simpl.
  by assert ((Z.of_nat (concurrentTaskSema s) <? MaxConcurrentTasks cfg) = true)
    as -> by (apply Z.ltb_lt; done).
Qed.

Lemma Run_at env s i g :
  goroutines s !! i = Some g →
  exec cfg (Run i env) s
  = '(h, n, gs', evs) ← step_goroutine cfg env g s;
    Some (mkSystem h (Tasks s) n
            (take i (goroutines s) ++ gs' ++ drop (S i) (goroutines s)), evs).
Proof. intros Hg. simpl. by rewrite Hg. Qed.

(** *** Launches and the threshold *)

Lemma launches_app addr evs1 evs2 :
  launches addr (evs1 ++ evs2) = (launches addr evs1 + launches addr evs2)%nat.
Proof. unfold launches. by rewrite List.filter_app, length_app. Qed.

Lemma exec_launch_threshold a s s' evs addr :
  Inv cfg s →
  exec cfg a s = Some (s', evs) →
  (0 < launches addr evs)%nat →
  ∃ tk, heap s' !! addr = Some tk ∧ at_threshold cfg tk.
Proof.
  intros [Hgs _] Hex Hl. destruct a as [uuid|taskID body|i env]; simpl in Hex.
  - unfold CreateTaskHandler in Hex.
    destruct (_ >=? _); simplify_eq; cbv in Hl; lia.
  - unfold AddFileHandler in Hex.
    destruct (Tasks s !! taskID); [|simplify_eq; cbv in Hl; lia].
    destruct (Decode_body body); simplify_eq; cbv in Hl; lia.
  - destruct (goroutines s !! i) as [g|] eqn:Hg; simpl in Hex; [|done].
    destruct (step_goroutine cfg env g s) as [[[[h n] gs] evs']|] eqn:Hst;
      simpl in Hex; [|done].
    simplify_eq. cbn [heap].
    pose proof (Forall_lookup_1 _ _ _ _ Hgs Hg) as Hok.
    destruct g as [a0|a0|a0|a0|a0 st|]; simpl in Hst.
    + destruct (heap s !! a0); simpl in Hst; [|done].
      destruct (_ >=? _); simplify_eq; cbv in Hl; lia.
    + destruct (_ <? _); simplify_eq.
      unfold launches in Hl. simpl in Hl.
      destruct (Nat.eqb_spec a0 addr) as [->|]; [exact Hok|simpl in Hl; lia].
    + simplify_eq. cbv in Hl; lia.
    + destruct (heap s !! a0); simpl in Hst; [|done].
      destruct (Process_files _ _ _ _) as [[msg tr]|st]; simplify_eq;
        cbv in Hl; lia.
    + simplify_eq. cbv in Hl; lia.
    + destruct (concurrentTaskSema s); simplify_eq. cbv in Hl; lia.
Qed.

Lemma run_launch_threshold acts : ∀ s s' evs addr,
  Inv cfg s →
  run cfg acts s = Some (s', evs) →
  (0 < launches addr evs)%nat →
  ∃ tk, heap s' !! addr = Some tk ∧ at_threshold cfg tk.
Proof.
  induction acts as [|a acts IH]; intros s s' evs addr HI Hrun Hl;
    simpl in Hrun.
  - simplify_eq. cbv in Hl. lia.
  - destruct (exec cfg a s) as [[s1 evs1]|] eqn:Hex; simpl in Hrun; [|done].
    destruct (run cfg acts s1) as [[s2 evs2]|] eqn:Hr; simpl in Hrun; [|done].
    simplify_eq. rewrite launches_app in Hl.
    destruct (decide (0 < launches addr evs2)%nat) as [H2|H2].
    + eapply (IH s1); [by eapply Inv_exec|exact Hr|exact H2].
    + destruct (exec_launch_threshold _ _ _ _ addr HI Hex) as (tk & Htk & Hth);
        [lia|].
      destruct (run_heap_grows _ _ _ _ Hr _ _ Htk) as (t' & Hl' & _ & Hp & _).
      exists t'. eauto using at_threshold_prefix.
Qed.

Lemma run_cons_Some a acts s s1 evs1 s2 evs2 :
  exec cfg a s = Some (s1, evs1) →
  run cfg acts s1 = Some (s2, evs2) →
  run cfg (a :: acts) s = Some (s2, evs1 ++ evs2).
Proof. intros H1 H2. cbn [run]. rewrite H1. simpl. by rewrite H2. Qed.

Lemma run_one a s s1 evs1 :
  exec cfg a s = Some (s1, evs1) → run cfg [a] s = Some (s1, evs1).
Proof.
  intros H1. rewrite <-(app_nil_r evs1). by eapply run_cons_Some.
Qed.

(** The request of a known task with a decodable body, followed by the
    length check when the threshold is reached: the handler stands at the
    channel send, and nothing has been answered. *)
Lemma AddFile_reaches_send env s taskID body addr tk url :
  Tasks s !! taskID = Some addr →
  heap s !! addr = Some tk →
  Decode_body body = Some url →
  MaxFilesPerTask cfg ≤ Z.of_nat (length (FileURLs tk)) + 1 →
  ∃ s2,
    run cfg [AddFileReq taskID body; Run (length (goroutines s)) env] s
    = Some (s2, [])
    ∧ heap s2 !! addr = Some (SetResultURL (AddFile url tk))
    ∧ goroutines s2 = goroutines s ++ [AddFile_send addr]
    ∧ concurrentTaskSema s2 = concurrentTaskSema s
    ∧ Tasks s2 = Tasks s.
Proof.
  intros Ht Hl Hd Hth.
  pose proof (AddFileHandler_records s taskID body addr url Ht Hd) as H1.
  set (s1 := mkSystem (alter (AddFile url) addr (heap s)) (Tasks s)
               (concurrentTaskSema s) (goroutines s ++ [AddFile_check addr])) in *.
  assert (heap s1 !! addr = Some (AddFile url tk)) as Hl1.
  { subst s1. cbn [heap]. by rewrite list_lookup_alter_eq, Hl. }
  assert (at_threshold cfg (AddFile url tk)) as Hth1.
  { unfold at_threshold, AddFile. cbn [FileURLs with_FileURLs].
    rewrite length_app. simpl. lia. }
  pose proof (Run_last env s1 (goroutines s) (AddFile_check addr) eq_refl) as H2.
  rewrite (AddFile_check_at_threshold env s1 addr _ Hl1 Hth1) in H2.
  simpl in H2.
  eexists. split; [|split_and!].
  - change (@nil Event) with (@nil Event ++ []).
    eapply run_cons_Some; [exact H1|]. apply run_one. exact H2.
  - subst s1. cbn [heap]. by rewrite !list_lookup_alter_eq, Hl.
  - done.
  - done.
  - done.
Qed.

Lemma status_move_Processing st : status_move st StatusProcessing = true.
Proof. by destruct st. Qed.

Lemma task_step_status_move s addr t t' :
  Inv cfg s →
  heap s !! addr = Some t →
  task_step s addr t t' →
  status_move (Status t) (Status t') = true.
Proof.
  intros [Hgs _] Hl Hst. rewrite Forall_forall in Hgs.
  destruct Hst as [t|url t|t|t|msg t Hin|st t Hin]; simpl;
    try apply status_move_refl.
  - apply status_move_Processing.
  - destruct (Hgs _ Hin) as (tk & Hl' & _ & Hs).
    assert (tk = t) as -> by congruence. by destruct (Status t).
  - destruct (Hgs _ Hin) as (tk & Hl' & _ & Hs).
    assert (tk = t) as -> by congruence.
    by destruct (Status t).
Qed.

(** C4, amended. In every reachable state, one step moves the status of
    every task by [status_move]: a task leaves Created only for
    Processing, so Done and Error are reached only after Processing; and
    over any run a task that has left Created never comes back to it.
    (A later pass does set Done or Error back to Processing.) *)
Theorem status_leaves_Created_through_Processing s :
  reachable cfg s →
  (∀ a s' evs addr t,
     exec cfg a s = Some (s', evs) →
     heap s !! addr = Some t →
     ∃ t', heap s' !! addr = Some t'
           ∧ status_move (Status t) (Status t') = true)
  ∧ (∀ acts s' evs addr t,
       run cfg acts s = Some (s', evs) →
       heap s !! addr = Some t →
       Status t ≠ StatusCreated →
       ∃ t', heap s' !! addr = Some t' ∧ Status t' ≠ StatusCreated).
Proof.
  intros HI%reachable_Inv. split.
  - intros a s' evs addr t Hex Hl.
    destruct (exec_task_step _ _ _ _ _ _ Hex Hl) as (t' & Hl' & Hst).
    exists t'. split; [done|]. by eapply task_step_status_move.
  - intros acts s' evs addr t Hrun Hl Hs.
    destruct (run_heap_grows _ _ _ _ Hrun _ _ Hl) as (t' & Hl' & _ & _ & Hs').
    exists t'. auto.
Qed.

(** C1, amended. When an append brings the file count of a task to the
    threshold while every slot is taken, the file is recorded and the
    handler then stands at the channel send without having answered:
    no denial is returned, it cannot move for as long as the channel is
    full, and no pass is started meanwhile. As soon as a slot is free the
    send goes through, the pass is launched and the request is answered
    202. *)
Theorem AddFile_at_threshold_waits_for_a_slot env s taskID body addr tk url :
  Tasks s !! taskID = Some addr →
  heap s !! addr = Some tk →
  Decode_body body = Some url →
  MaxFilesPerTask cfg ≤ Z.of_nat (length (FileURLs tk)) + 1 →
  MaxConcurrentTasks cfg ≤ Z.of_nat (concurrentTaskSema s) →
  (∃ s2,
     run cfg [AddFileReq taskID body; Run (length (goroutines s)) env] s
     = Some (s2, [])
     ∧ heap s2 !! addr = Some (SetResultURL (AddFile url tk))
     ∧ goroutines s2 = goroutines s ++ [AddFile_send addr]
     ∧ concurrentTaskSema s2 = concurrentTaskSema s
     ∧ ∀ env', exec cfg (Run (length (goroutines s)) env') s2 = None)
  ∧ (∀ s' j env',
       goroutines s' !! j = Some (AddFile_send addr) →
       MaxConcurrentTasks cfg ≤ Z.of_nat (concurrentTaskSema s') →
       exec cfg (Run j env') s' = None)
  ∧ (∀ s' j env',
       goroutines s' !! j = Some (AddFile_send addr) →
       Z.of_nat (concurrentTaskSema s') < MaxConcurrentTasks cfg →
       ∃ s'',
         exec cfg (Run j env') s'
         = Some (s'', [Launch addr; Respond http_StatusAccepted None])
         ∧ goroutines s'' !! j = Some (Go_Process addr)
         ∧ concurrentTaskSema s'' = S (concurrentTaskSema s')
         ∧ heap s'' = heap s').
Proof.
  intros Ht Hl Hd Hth Hfull.
  assert (∀ s' j env',
            goroutines s' !! j = Some (AddFile_send addr) →
            MaxConcurrentTasks cfg ≤ Z.of_nat (concurrentTaskSema s') →
            exec cfg (Run j env') s' = None) as Hwait.
  { intros s' j env' Hg Hf. rewrite (Run_at env' s' j _ Hg).
    by rewrite AddFile_send_full. }
  split_and!; [|exact Hwait|].
  - destruct (AddFile_reaches_send env s taskID body addr tk url Ht Hl Hd Hth)
      as (s2 & Hrun & Hl2 & Hg2 & Hn2 & _).
    exists s2. split_and!; try done.
    intros env'. apply Hwait.
    + rewrite Hg2. by apply list_lookup_middle.
    + by rewrite Hn2.
  - intros s' j env' Hg Hfree. rewrite (Run_at env' s' j _ Hg).
    rewrite AddFile_send_free by done. simpl.
    eexists. split_and!; try done. cbn [goroutines].
    apply list_lookup_middle. apply lookup_lt_Some in Hg.
    rewrite length_take. lia.
Qed.

(** C2, amended. Once a pass has been launched for a task, a further
    append for it is still accepted and recorded, and since the file
    count stays at or above the threshold it goes on to the channel send:
    with a free slot another pass is launched for the same task, and that
    pass sets the status to Processing again. *)
Theorem AddFile_after_launch_launches_again env s0 acts s evs taskID body addr url :
  NewTaskManager cfg = Some s0 →
  run cfg acts s0 = Some (s, evs) →
  (0 < launches addr evs)%nat →
  Tasks s !! taskID = Some addr →
  Decode_body body = Some url →
  Z.of_nat (concurrentTaskSema s) < MaxConcurrentTasks cfg →
  let i := length (goroutines s) in
  ∃ tk s3 s4,
    heap s !! addr = Some tk
    ∧ run cfg [AddFileReq taskID body; Run i env; Run i env] s
      = Some (s3, [Launch addr; Respond http_StatusAccepted None])
    ∧ heap s3 !! addr = Some (SetResultURL (AddFile url tk))
    ∧ goroutines s3 = goroutines s ++ [Go_Process addr]
    ∧ exec cfg (Run i env) s3 = Some (s4, [])
    ∧ heap s4 !! addr = Some (Process_begin (SetResultURL (AddFile url tk)))
    ∧ Status <$> heap s4 !! addr = Some StatusProcessing
    ∧ goroutines s4 = goroutines s ++ [Process_running addr].
Proof.
  intros Hnew Hrun Hlaunch Ht Hd Hfree i.
  pose proof (Inv_NewTaskManager _ Hnew) as HI0.
  destruct (run_launch_threshold _ _ _ _ addr HI0 Hrun Hlaunch) as (tk & Hl & Hth).
  destruct (AddFile_reaches_send env s taskID body addr tk url Ht Hl Hd)
    as (s2 & Hrun2 & Hl2 & Hg2 & Hn2 & Ht2); [unfold at_threshold in Hth; lia|].
  pose proof (Run_last env s2 (goroutines s) (AddFile_send addr) Hg2) as H3.
  rewrite AddFile_send_free in H3 by (by rewrite Hn2). simpl in H3.
  match type of H3 with _ = Some (?x, _) => set (s3 := x) in * end.
  pose proof (Run_last env s3 (goroutines s) (Go_Process addr) eq_refl) as H4.
  simpl in H4.
  exists tk, s3. eexists. split_and!; [done| |done|done|exact H4| | |done].
  - change [AddFileReq taskID body; Run i env; Run i env]
      with ([AddFileReq taskID body; Run i env] ++ [Run i env]).
    change [Launch addr; Respond http_StatusAccepted None]
      with ([] ++ [Launch addr; Respond http_StatusAccepted None]).
    eapply run_app; [exact Hrun2|]. by apply run_one.
  - cbn [heap]. by rewrite list_lookup_alter_eq, Hl2.
  - cbn [heap]. by rewrite list_lookup_alter_eq, Hl2.
Qed.

(** *** Identifiers *)

Lemma exec_created a s s' evs :
  exec cfg a s = Some (s', evs) →
  omap created_id evs `sublist_of` omap drawn_uuid [a]
  ∧ ∀ id, is_Some (Tasks s !! id) ∨ id ∈ omap created_id evs →
          is_Some (Tasks s' !! id).
Proof.
  intros Hex. destruct a as [uuid|taskID body|i env]; simpl in Hex.
  - unfold CreateTaskHandler in Hex.
    destruct (_ >=? _); simplify_eq; simpl.
    + split; [apply sublist_nil_l|]. intros id [?|Hin]; [done|].
      by apply elem_of_nil in Hin.
    + split; [done|]. intros id [Hid|Hin].
      * destruct (decide (uuid = id)) as [->|Hne].
        -- rewrite lookup_insert_eq. by eexists.
        -- by rewrite lookup_insert_ne.
      * apply list_elem_of_singleton in Hin as ->.
        rewrite lookup_insert_eq. by eexists.
  - unfold AddFileHandler in Hex.
    destruct (Tasks s !! taskID) as [a0|] eqn:Ha0.
    + destruct (Decode_body body); simplify_eq; simpl; (split; [done|]);
        intros id [?|Hin]; try done; by apply elem_of_nil in Hin.
    + simplify_eq; simpl. split; [done|].
      intros id [?|Hin]; try done; by apply elem_of_nil in Hin.
  - destruct (goroutines s !! i) as [g|] eqn:Hg; simpl in Hex; [|done].
    destruct (step_goroutine cfg env g s) as [[[[h n] gs] evs']|] eqn:Hst;
      simpl in Hex; [|done].
    simplify_eq. cbn [Tasks].
    assert (omap created_id evs = []) as ->.
    { destruct g as [a0|a0|a0|a0|a0 st|]; simpl in Hst.
      - destruct (heap s !! a0); simpl in Hst; [|done].
        destruct (_ >=? _); by simplify_eq.
      - destruct (_ <? _); by simplify_eq.
      - by simplify_eq.
      - destruct (heap s !! a0); simpl in Hst; [|done].
        destruct (Process_files _ _ _ _) as [[msg tr]|st]; by simplify_eq.
      - by simplify_eq.
      - destruct (concurrentTaskSema s); by simplify_eq. }
    split; [done|]. intros id [?|Hin]; [done|]. by apply elem_of_nil in Hin.
Qed.

Lemma run_created acts : ∀ s s' evs,
  run cfg acts s = Some (s', evs) →
  omap created_id evs `sublist_of` omap drawn_uuid acts
  ∧ ∀ id, is_Some (Tasks s !! id) ∨ id ∈ omap created_id evs →
          is_Some (Tasks s' !! id).
Proof.
  induction acts as [|a acts IH]; intros s s' evs Hrun; simpl in Hrun.
  - simplify_eq. split; [done|]. intros id [?|Hin]; [done|].
    by apply elem_of_nil in Hin.
  - destruct (exec cfg a s) as [[s1 evs1]|] eqn:Hex; simpl in Hrun; [|done].
    destruct (run cfg acts s1) as [[s2 evs2]|] eqn:Hr; simpl in Hrun; [|done].
    simplify_eq.
    destruct (exec_created _ _ _ _ Hex) as [Hsub1 Hreg1].
    destruct (IH _ _ _ Hr) as [Hsub2 Hreg2].
    split.
    + rewrite omap_app. change (a :: acts) with ([a] ++ acts).
      rewrite (omap_app _ [a] acts). by apply sublist_app.
    + intros id Hid. apply Hreg2. rewrite omap_app, elem_of_app in Hid.
      destruct Hid as [Hid|[Hid|Hid]]; [left; apply Hreg1; by left
                                       |left; apply Hreg1; by right
                                       |by right].
Qed.

(** C7, amended. [AddFileHandler] answers 404 exactly when the
    identifier is not registered, 400 exactly when it is registered and
    the body does not decode (no JSON value, a value that is neither an
    object nor null, or a [url] member that is neither a string nor
    null), and otherwise records the decoded string without looking at
    it: an object with an empty or missing [url] member is accepted and
    records the empty string. Below the threshold the answer is 202. *)
Theorem AddFileHandler_outcome s taskID body :
  (∀ s' evs,
     AddFileHandler taskID body s = (s', evs) →
     (evs = [Respond http_StatusNotFound None] ↔ Tasks s !! taskID = None)
     ∧ (evs = [Respond http_StatusBadRequest None]
        ↔ is_Some (Tasks s !! taskID) ∧ Decode_body body = None)
     ∧ (evs = []
        ↔ ∃ addr url,
            Tasks s !! taskID = Some addr ∧ Decode_body body = Some url
            ∧ s' = mkSystem (alter (AddFile url) addr (heap s)) (Tasks s)
                     (concurrentTaskSema s)
                     (goroutines s ++ [AddFile_check addr]))
     ∧ (evs ≠ [] → s' = s))
  ∧ (∀ env addr tk url,
       Tasks s !! taskID = Some addr →
       heap s !! addr = Some tk →
       Decode_body body = Some url →
       ¬ at_threshold cfg (AddFile url tk) →
       ∃ s2,
         run cfg [AddFileReq taskID body; Run (length (goroutines s)) env] s
         = Some (s2, [Respond http_StatusAccepted None])
         ∧ heap s2 !! addr = Some (AddFile url tk))
  ∧ Decode_body None = None
  ∧ (∀ u, Decode_body (Some (JObject [("url", JString u)])) = Some u)
  ∧ Decode_body (Some (JObject [])) = Some ""
  ∧ Decode_body (Some JNull) = Some ""
  ∧ (∀ n, Decode_body (Some (JObject [("url", JNumber n)])) = None)
  ∧ (∀ u, Decode_body (Some (JString u)) = None).
Proof.
  split_and!; try done.
  - intros s' evs Hh. unfold AddFileHandler in Hh.
    destruct (Tasks s !! taskID) as [addr|] eqn:Ht.
    + destruct (Decode_body body) as [url|] eqn:Hd; simplify_eq.
      * split_and!; try done.
        -- split; [done|]. by intros [_ ?].
        -- split; [|done]. intros _. by exists addr, url.
      * split_and!; try done.
        -- split; [done|]. by intros (? & ? & _ & ? & _).
    + simplify_eq. split_and!; try done.
      * split; [done|]. by intros [[? ?] _].
      * split; [done|]. by intros (? & ? & ? & _).
  - intros env addr tk url Ht Hl Hd Hth.
    pose proof (AddFileHandler_records s taskID body addr url Ht Hd) as H1.
    set (s1 := mkSystem (alter (AddFile url) addr (heap s)) (Tasks s)
                 (concurrentTaskSema s) (goroutines s ++ [AddFile_check addr])) in *.
    assert (heap s1 !! addr = Some (AddFile url tk)) as Hl1.
    { subst s1. cbn [heap]. by rewrite list_lookup_alter_eq, Hl. }
    pose proof (Run_last env s1 (goroutines s) (AddFile_check addr) eq_refl) as H2.
    rewrite (AddFile_check_below_threshold env s1 addr _ Hl1 Hth) in H2.
    simpl in H2. eexists. split.
    + change [Respond http_StatusAccepted None]
        with ([] ++ [Respond http_StatusAccepted None]).
      eapply run_cons_Some; [exact H1|]. apply run_one. exact H2.
    + done.
Qed.

Lemma step_goroutine_length env g s h n gs evs :
  step_goroutine cfg env g s = Some (h, n, gs, evs) →
  length h = length (heap s).
Proof.
  intros Hst. destruct g as [a0|a0|a0|a0|a0 st|]; simpl in Hst.
  - destruct (heap s !! a0); simpl in Hst; [|done].
    destruct (_ >=? _); simplify_eq; by rewrite ?length_alter.
  - destruct (_ <? _); by simplify_eq.
  - simplify_eq. by rewrite length_alter.
  - destruct (heap s !! a0); simpl in Hst; [|done].
    destruct (Process_files _ _ _ _) as [[msg tr]|st]; simplify_eq;
      by rewrite ?length_alter.
  - simplify_eq. by rewrite length_alter.
  - destruct (concurrentTaskSema s); by simplify_eq.
Qed.

(** One call of a served run: the heap grows by one task exactly when an
    identifier is returned, and that identifier is the one [uuid.New]
    gives for the number of tasks allocated before. *)
Lemma exec_call_created c s s1 evs :
  exec cfg (action_of c s) s = Some (s1, evs) →
  omap created_id evs
  = uuid_New <$> seq (length (heap s)) (length (heap s1) - length (heap s))
  ∧ (length (heap s) ≤ length (heap s1))%nat.
Proof.
  intros Hex. destruct c as [|taskID body|i env].
  - simpl in Hex. unfold CreateTaskHandler in Hex.
    destruct (_ >=? _); simplify_eq; cbn [heap].
    + by rewrite Nat.sub_diag.
    + rewrite length_app. cbn [length].
      replace (length (heap s) + 1 - length (heap s))%nat with 1%nat by lia.
      split; [done|lia].
  - destruct (exec_created _ _ _ _ Hex) as [Hsub _].
    apply sublist_nil_r in Hsub as ->.
    simpl in Hex. unfold AddFileHandler in Hex.
    assert (length (heap s1) = length (heap s)) as ->.
    { destruct (Tasks s !! taskID); [|by simplify_eq].
      destruct (Decode_body body); simplify_eq; [|done].
      cbn [heap]. by rewrite length_alter. }
    by rewrite Nat.sub_diag.
  - destruct (exec_created _ _ _ _ Hex) as [Hsub _].
    apply sublist_nil_r in Hsub as ->.
    simpl in Hex.
    destruct (goroutines s !! i) as [g|]; simpl in Hex; [|done].
    destruct (step_goroutine cfg env g s) as [[[[h n] gs] evs']|] eqn:Hst;
      simpl in Hex; [|done].
    simplify_eq. cbn [heap].
    rewrite (step_goroutine_length _ _ _ _ _ _ _ Hst).
    by rewrite Nat.sub_diag.
Qed.

Lemma serve_created calls : ∀ s s' evs,
  serve cfg calls s = Some (s', evs) →
  omap created_id evs
  = uuid_New <$> seq (length (heap s)) (length (heap s') - length (heap s))
  ∧ (length (heap s) ≤ length (heap s'))%nat.
Proof.
  induction calls as [|c calls IH]; intros s s' evs Hrun; cbn [serve] in Hrun.
  - simplify_eq. by rewrite Nat.sub_diag.
  - destruct (exec cfg (action_of c s) s) as [[s1 evs1]|] eqn:Hex;
      simpl in Hrun; [|done].
    destruct (serve cfg calls s1) as [[s2 evs2]|] eqn:Hr; simpl in Hrun; [|done].
    simplify_eq.
    destruct (exec_call_created _ _ _ _ Hex) as [Hev1 Hle1].
    destruct (IH _ _ _ Hr) as [Hev2 Hle2].
    split; [|lia].
    rewrite omap_app, Hev1, Hev2, <-fmap_app. f_equal.
    replace (length (heap s') - length (heap s))%nat
      with ((length (heap s1) - length (heap s))
            + (length (heap s') - length (heap s1)))%nat by lia.
    rewrite seq_app. do 2 f_equal. lia.
Qed.

(** A served run is a run: the one in which every create-task request
    carries the identifier [uuid.New] returns at that point. *)
Lemma serve_run calls : ∀ s s' evs,
  serve cfg calls s = Some (s', evs) →
  ∃ acts, length acts = length calls ∧ run cfg acts s = Some (s', evs).
Proof.
  induction calls as [|c calls IH]; intros s s' evs Hrun; cbn [serve] in Hrun.
  - simplify_eq. by exists [].
  - destruct (exec cfg (action_of c s) s) as [[s1 evs1]|] eqn:Hex;
      simpl in Hrun; [|done].
    destruct (serve cfg calls s1) as [[s2 evs2]|] eqn:Hr; simpl in Hrun; [|done].
    simplify_eq. destruct (IH _ _ _ Hr) as (acts & Hlen & Hacts).
    exists (action_of c s :: acts). split; [by simpl; rewrite Hlen|].
    cbn [run]. rewrite Hex. simpl. by rewrite Hacts.
Qed.


End Manager.

(** ** The extension filter *)

Section Filter.
Context `{Externals}.

Lemma match_allowed_elem_of ext allowed :
  match_allowed ext allowed = true ↔ ext ∈ allowed.
Proof.
  induction allowed as [|x allowed IH]; simpl.
  - split; [done|]. by intros ?%elem_of_nil.
  - rewrite elem_of_cons. destruct (String.eqb_spec ext x) as [->|Hne].
    + split; auto.
    + rewrite IH. split; [auto|]. by intros [?|?].
Qed.

Lemma first_nonempty_app l1 l2 :
  first_nonempty (l1 ++ l2)
  = match first_nonempty l1 with
    | Some e => Some e
    | None => first_nonempty l2
    end.
Proof.
  unfold first_nonempty. rewrite filter_app.
  by destruct (filter _ l1).
Qed.

Lemma first_nonempty_Some l e :
  first_nonempty l = Some e → e ≠ "" ∧ e ∈ l.
Proof.
  unfold first_nonempty. intros Hh%head_Some_elem_of.
  by apply list_elem_of_filter in Hh.
Qed.

Lemma scan_vals_first vals :
  scan_vals vals "" = default "" (first_nonempty (lowered_ext <$> vals)).
Proof.
  induction vals as [|v vals IH]; [done|].
  rewrite fmap_cons. cbn [scan_vals]. fold (lowered_ext v).
  unfold first_nonempty in *.
  destruct (String.eqb_spec (lowered_ext v) "") as [He|He]; simpl.
  - rewrite filter_cons_False by (intros Hn; by apply Hn). exact IH.
  - by rewrite filter_cons_True.
Qed.

Lemma scan_query_first q :
  scan_query q ""
  = default "" (first_nonempty (lowered_ext <$> mjoin (snd <$> q))).
Proof.
  induction q as [|[k vals] q IH]; [done|].
  rewrite fmap_cons. cbn [scan_query snd].
  change (mjoin (vals :: (snd <$> q))) with (vals ++ mjoin (snd <$> q)).
  rewrite fmap_app, first_nonempty_app, scan_vals_first.
  destruct (first_nonempty (lowered_ext <$> vals)) as [e|] eqn:Hf; simpl.
  - apply first_nonempty_Some in Hf as [Hne _].
    by destruct (String.eqb_spec e "").
  - exact IH.
Qed.

Lemma isAllowedExtension_unfold order fileURL allowed :
  isAllowedExtension order fileURL allowed
  = match url_Parse fileURL with
    | None => false
    | Some u =>
        match_allowed (default "" (determined_extension u (order (Query u))))
                      allowed
    end.
Proof.
  unfold isAllowedExtension, determined_extension.
  destruct (url_Parse fileURL) as [u|]; [|done].
  fold (lowered_ext (Path u)).
  destruct (decide (lowered_ext (Path u) = "")) as [He|He].
  - rewrite He. simpl. by rewrite scan_query_first.
  - by destruct (String.eqb_spec (lowered_ext (Path u)) "").
Qed.

(** C9, amended. For an allow-list without the empty string, the filter
    returns true exactly when the URL parses and the extension determined
    (the lower-cased extension of the path or, when that is empty, the
    first non-empty lower-cased extension among the parameter values in
    the order visited) is an entry of the allow-list; a URL that does not
    parse and a URL with no determinable extension give false. The
    extension found in the query is that of a value of a parameter of the
    URL whenever the order visited is a permutation of the parameters. *)
Theorem isAllowedExtension_iff order fileURL allowed :
  "" ∉ allowed →
  (isAllowedExtension order fileURL allowed = true
   ↔ ∃ u e, url_Parse fileURL = Some u
            ∧ determined_extension u (order (Query u)) = Some e
            ∧ e ∈ allowed)
  ∧ (url_Parse fileURL = None →
     isAllowedExtension order fileURL allowed = false)
  ∧ (∀ u, url_Parse fileURL = Some u →
          determined_extension u (order (Query u)) = None →
          isAllowedExtension order fileURL allowed = false)
  ∧ (∀ u e, url_Parse fileURL = Some u →
            order (Query u) ≡ₚ map_to_list (Query u) →
            determined_extension u (order (Query u)) = Some e →
            e ≠ ""
            ∧ (e = lowered_ext (Path u)
               ∨ lowered_ext (Path u) = ""
                 ∧ ∃ k vals v, Query u !! k = Some vals ∧ v ∈ vals
                               ∧ e = lowered_ext v)).
Proof.
  intros Hempty. rewrite isAllowedExtension_unfold. split_and!.
  - destruct (url_Parse fileURL) as [u|].
    + rewrite match_allowed_elem_of. split.
      * intros Hin. destruct (determined_extension u _) as [e|] eqn:Hd.
        -- by exists u, e.
        -- done.
      * intros (u' & e & [= <-] & -> & Hin). done.
    + split; [done|]. by intros (? & ? & ? & _).
  - by intros ->.
  - intros u -> ->. simpl.
    destruct (match_allowed "" allowed) eqn:Hm; [|done].
    by apply match_allowed_elem_of in Hm.
  - intros u e _ Hperm Hd. unfold determined_extension in Hd.
    destruct (decide (lowered_ext (Path u) = "")) as [He|He].
    + apply first_nonempty_Some in Hd as [Hne Hin]. split; [done|].
      right. split; [done|].
      apply list_elem_of_fmap in Hin as (v & -> & Hv).
      apply list_elem_of_join in Hv as (vals & Hv & Hvals).
      apply list_elem_of_fmap in Hvals as ([k vals'] & -> & Hkv).
      rewrite Hperm in Hkv. apply elem_of_map_to_list in Hkv.
      by exists k, vals', v.
    + simplify_eq. split; [done|]. by left.
Qed.

End Filter.

(* ===================================================================== *)
(** * The code run on the scenarios                                      *)
(* ===================================================================== *)

Section Runs.
Import Reference Scenario.
Local Existing Instance externals.

(** ** The processing pass *)



Lemma Process_create_failure_is_Error_witness :
  os_Create env_no_create (zipFileName_of (ID (task_of [url_a]))) = Some "permission denied"
  ∧ Status (task (Process env_no_create [".png"] (task_of [url_a]))) = StatusError.
Proof.
  split; [reflexivity|].
  exact (proj1 (Process_create_failure_is_Error env_no_create [".png"]
                  (task_of [url_a]) "permission denied" eq_refl)).
Defined.

Lemma Process_file_status_not_200_witness :
  errors (Process_file env_201 [".png"] "t1" 0 url_a (mkPassState [] [] []))
  = ["failed to download file: http://example.com/a.png, status: 201 Created"].
Proof.
  refine (proj1 (Process_file_status_not_200 env_201 [".png"] "t1" 0 url_a
                   (mkPassState [] [] []) (mkResponse 201 "201 Created" "data")
                   _ _ _)).
  - vm_compute. reflexivity.
  - reflexivity.
  - simpl. lia.
Defined.

(** C6. The entry is named by [filepath.Base] of the whole URL string,
    in every world: for a URL with a query string or a fragment the name
    carries them, and a slash in the query string cuts the name there,
    while the last segment of the URL's path is "a.png" in each case. *)
Theorem entry_name_follows_raw_URL :
  (∀ env allowed id i fileURL st,
     entries (Process_file env allowed id i fileURL st) = entries st
     ∨ ∃ data, entries (Process_file env allowed id i fileURL st)
               = entries st ++ [(filepath_Base fileURL, data)])
  ∧ filepath_Base "http://example.com/a.png?x=1" = "a.png?x=1"
  ∧ archive (Process env_ok [".png"] (task_of ["http://example.com/a.png?x=1"]))
    = Some [("a.png?x=1", "data")]
  ∧ archive (Process env_ok [".png"] (task_of ["http://example.com/a.png#top"]))
    = Some [("a.png#top", "data")]
  ∧ archive (Process env_ok [".png"]
               (task_of ["http://example.com/a.png?from=x/y.txt"]))
    = Some [("y.txt", "data")]
  ∧ (filepath_Base ∘ Path) <$> url_Parse "http://example.com/a.png?x=1"
    = Some "a.png"
  ∧ (filepath_Base ∘ Path) <$> url_Parse "http://example.com/a.png#top"
    = Some "a.png"
  ∧ (filepath_Base ∘ Path) <$> url_Parse "http://example.com/a.png?from=x/y.txt"
    = Some "a.png".
Proof.
  split; [apply Process_file_entry|]. vm_compute. by split_and!.
Qed.

(** ** The extension filter *)

Lemma isAllowedExtension_iff_witness :
  isAllowedExtension (λ q, map_to_list q)
    "http://example.com/download?file=report.PDF" [".pdf"] = true
  ↔ ∃ u e, url_Parse "http://example.com/download?file=report.PDF" = Some u
           ∧ determined_extension u (map_to_list (Query u)) = Some e
           ∧ e ∈ [".pdf"].
Proof.
  refine (proj1 (isAllowedExtension_iff (λ q, map_to_list q)
                   "http://example.com/download?file=report.PDF" [".pdf"] _)).
  intros Hin. apply list_elem_of_singleton in Hin. discriminate Hin.
Defined.

(** C9, as stated, fails: with the empty string in the allow-list a URL
    for which no extension can be determined is allowed. *)
Lemma empty_entry_allows_undetermined_extension :
  isAllowedExtension (λ q, map_to_list q) "http://example.com/file" [""] = true
  ∧ ∃ u, url_Parse "http://example.com/file" = Some u
         ∧ determined_extension u (map_to_list (Query u)) = None.
Proof.
  split; [by vm_compute|]. eexists. split; [by vm_compute|]. by vm_compute.
Qed.

(** ** The task manager *)

(** C1, as stated, fails. Every slot is taken, the append has brought the
    second task to the threshold and is recorded; its handler has not
    answered (no denial among the events) and cannot move. After the
    first pass has released the slot the handler goes on: a pass is
    launched for the second task and the request is answered 202. *)
Lemma AddFile_blocks_when_slots_are_taken :
  Z.of_nat (concurrentTaskSema at_send) = MaxConcurrentTasks cfg1
  ∧ FileURLs <$> heap at_send !! 1%nat = Some [url_b]
  ∧ goroutines at_send = [Go_Process 0; AddFile_send 1]
  ∧ events_after cfg1 second_task_at_send
    = [Respond 201 (Some (NewTask "t1")); Respond 201 (Some (NewTask "t2"));
       Launch 0; Respond 202 None]
  ∧ (∀ env, exec cfg1 (Run 1 env) at_send = None)
  ∧ events_after cfg1 (second_task_at_send ++ first_task_finishes)
    = events_after cfg1 second_task_at_send ++ [Launch 1; Respond 202 None].
Proof. vm_compute. by split_and!. Qed.

Lemma AddFile_at_threshold_waits_for_a_slot_witness :
  ∃ s2,
    run cfg1 [AddFileReq "t2" (body_of url_b); Run 1 env_ok] in_flight
    = Some (s2, [])
    ∧ goroutines s2 = goroutines in_flight ++ [AddFile_send 1]
    ∧ ∀ env', exec cfg1 (Run 1 env') s2 = None.
Proof.
  destruct (AddFile_at_threshold_waits_for_a_slot cfg1 env_ok in_flight "t2"
              (body_of url_b) 1 (NewTask "t2") url_b)
    as [(s2 & Hrun & _ & Hg & _ & Hwait) _].
  - by vm_compute.
  - by vm_compute.
  - reflexivity.
  - by vm_compute.
  - by vm_compute.
  - exists s2. split_and!; [exact Hrun|exact Hg|exact Hwait].
Defined.

(** C2, as stated, fails. After the first pass has ended, a second
    append to the same task launches a second pass: two launches for the
    task at address 0, and the outcome of the first pass (Done, no error
    details) is replaced by that of the second. *)
Lemma second_append_launches_a_second_pass :
  launches 0 (events_after cfg1 first_pass) = 1%nat
  ∧ heap (state_after cfg1 first_pass)
    = [mkTask "t1" StatusDone [url_a] "/archives/t1.zip" ""]
  ∧ launches 0 (events_after cfg1 (first_pass ++ second_append)) = 2%nat
  ∧ heap (state_after cfg1 (first_pass ++ second_append ++ second_pass_end))
    = [mkTask "t1" StatusDone [url_a; url_b] "/archives/t1.zip"
         ("failed to download file: http://example.com/a.png, error: dial tcp: connection refused; "
          +:+ "failed to download file: http://example.com/b.png, error: dial tcp: connection refused")].
Proof. vm_compute. by split_and!. Qed.

Lemma AddFile_after_launch_launches_again_witness :
  ∃ s3,
    run cfg1 [AddFileReq "t1" (body_of url_b); Run 0 env_ok; Run 0 env_ok]
      (state_after cfg1 first_pass)
    = Some (s3, [Launch 0; Respond 202 None]).
Proof.
  destruct (AddFile_after_launch_launches_again cfg1 env_ok start first_pass
              (state_after cfg1 first_pass) (events_after cfg1 first_pass)
              "t1" (body_of url_b) 0 url_b)
    as (tk & s3 & s4 & _ & Hrun & _).
  - reflexivity.
  - by vm_compute.
  - vm_compute. lia.
  - by vm_compute.
  - reflexivity.
  - by vm_compute.
  - exists s3. exact Hrun.
Defined.

(** C4, as stated, fails. The task is Done after its first pass and
    Processing again once the pass launched by a second append has
    taken its first step. *)
Lemma status_regresses_from_Done :
  Status <$> heap (state_after cfg1 first_pass) !! 0%nat = Some StatusDone
  ∧ Status <$> heap (state_after cfg1 (first_pass ++ second_append)) !! 0%nat
    = Some StatusProcessing
  ∧ is_Some (run cfg1 (first_pass ++ second_append) start).
Proof. vm_compute. split_and!; [done|done|by eexists]. Qed.

Lemma status_leaves_Created_through_Processing_witness :
  ∃ t', heap (state_after cfg1 (first_pass ++ second_append)) !! 0%nat = Some t'
        ∧ Status t' ≠ StatusCreated.
Proof.
  assert (reachable cfg1 (state_after cfg1 first_pass)) as Hreach.
  { exists start, first_pass, (events_after cfg1 first_pass).
    split; [reflexivity|by vm_compute]. }
  destruct (status_leaves_Created_through_Processing cfg1 _ Hreach) as [_ Hrun].
  refine (Hrun second_append
            (state_after cfg1 (first_pass ++ second_append))
            [Launch 0; Respond 202 None] 0%nat
            (mkTask "t1" StatusDone [url_a] "/archives/t1.zip" "") _ _ _).
  - by vm_compute.
  - by vm_compute.
  - discriminate.
Defined.

(** C7, as stated, fails. The bodies [{}] and [{"url": ""}] are accepted:
    no 400 is answered, the empty string is recorded as a file, and the
    answer is 202. *)
Lemma empty_url_is_accepted :
  events_after cfg2
    [CreateTaskReq "t1"; AddFileReq "t1" (Some (JObject [])); Run 0 env_ok]
  = [Respond 201 (Some (NewTask "t1")); Respond 202 None]
  ∧ heap (state_after cfg2
            [CreateTaskReq "t1"; AddFileReq "t1" (Some (JObject []));
             Run 0 env_ok])
    = [mkTask "t1" StatusCreated [""] "" ""]
  ∧ events_after cfg2
      [CreateTaskReq "t1"; AddFileReq "t1" (body_of ""); Run 0 env_ok]
    = [Respond 201 (Some (NewTask "t1")); Respond 202 None]
  ∧ heap (state_after cfg2
            [CreateTaskReq "t1"; AddFileReq "t1" (body_of ""); Run 0 env_ok])
    = [mkTask "t1" StatusCreated [""] "" ""].
Proof. vm_compute. by split_and!. Qed.

Lemma AddFileHandler_outcome_witness :
  ∃ s2,
    run cfg2 [AddFileReq "t1" (body_of url_a); Run 0 env_ok]
      (state_after cfg2 [CreateTaskReq "t1"])
    = Some (s2, [Respond 202 None])
    ∧ heap s2 !! 0%nat = Some (AddFile url_a (NewTask "t1")).
Proof.
  destruct (AddFileHandler_outcome cfg2 (state_after cfg2 [CreateTaskReq "t1"])
              "t1" (body_of url_a)) as (_ & Hacc & _).
  refine (Hacc env_ok 0%nat (NewTask "t1") url_a _ _ _ _).
  - by vm_compute.
  - by vm_compute.
  - reflexivity.
  - unfold at_threshold. vm_compute. by intros ?.
Defined.



End Runs.

(* ===================================================================== *)
(** * Part 5: further properties of the code                             *)
(* ===================================================================== *)

(** ** The processing pass: what is filtered, fetched and written *)

Section PassFiles.
Context `{Externals}.
Implicit Types (env : Env) (t : Task) (st : PassState).

Lemma Process_file_calls env allowed id i fileURL st :
  omap filtered_url (effects (Process_file env allowed id i fileURL st))
  = omap filtered_url (effects st) ++ [fileURL]
  ∧ omap fetched_url (effects (Process_file env allowed id i fileURL st))
    = omap fetched_url (effects st)
      ++ (if isAllowedExtension (range_order env i) fileURL allowed
          then [fileURL] else []).
Proof.
  unfold Process_file.
  destruct (isAllowedExtension _ _ _); simpl.
  - destruct (http_Get env i fileURL) as [err|resp]; simpl.
    { rewrite <-!app_assoc, !omap_app. by simpl. }
    destruct (StatusCode resp =? http_StatusOK); simpl.
    + destruct (zip_Create env i _); simpl.
      { rewrite <-!app_assoc, !omap_app. by simpl. }
      destruct (io_Copy env i _ _) as [[written err]|]; simpl;
        rewrite <-!app_assoc, !omap_app; by simpl.
    + rewrite <-!app_assoc, !omap_app. by simpl.
  - rewrite <-!app_assoc, !omap_app. simpl. by rewrite !app_nil_r.
Qed.

Lemma Process_loop_calls env allowed id urls : ∀ i st,
  omap filtered_url (effects (Process_loop env allowed id i urls st))
  = omap filtered_url (effects st) ++ urls
  ∧ omap fetched_url (effects (Process_loop env allowed id i urls st))
    = omap fetched_url (effects st) ++ allowed_urls env allowed i urls.
Proof.
  induction urls as [|u urls IH]; intros i st; simpl.
  - by rewrite !app_nil_r.
  - destruct (IH (S i) (Process_file env allowed id i u st)) as [-> ->].
    destruct (Process_file_calls env allowed id i u st) as [-> ->].
    by rewrite <-!app_assoc.
Qed.

Lemma allowed_urls_sublist env allowed urls : ∀ i,
  allowed_urls env allowed i urls `sublist_of` urls.
Proof.
  induction urls as [|u urls IH]; intros i; simpl; [done|].
  destruct (isAllowedExtension _ _ _); simpl.
  - by apply sublist_skip.
  - by apply sublist_cons.
Qed.

(** The loop of a pass over the files of [t], from its first state. *)
Lemma Process_created env allowed t :
  os_Create env (zipFileName_of (ID t)) = None →
  ∃ st,
    st = Process_loop env allowed (ID t) 0 (FileURLs t)
           (mkPassState [] []
              [Log ("Processing task " +:+ ID t); OsCreate (zipFileName_of (ID t))])
    ∧ Process env allowed t
      = mkProcessResult (Process_end (errors st) (Process_begin t))
          (Some (entries st))
          (effects st ++ [Log ("Finished processing task " +:+ ID t)])
    ∧ errors st = file_errors env allowed 0 (FileURLs t).
Proof.
  intros Hc. eexists. split; [reflexivity|]. split.
  - unfold Process, Process_files.
    change (ID (Process_begin t)) with (ID t).
    change (FileURLs (Process_begin t)) with (FileURLs t).
    by rewrite Hc.
  - by rewrite Process_loop_errors.
Qed.

(** X1. In a pass whose archive is created every submitted URL is given
    to the filter exactly once, in submission order, and the URLs given
    to [http.Get] are exactly those the filter lets through, in the same
    order: a URL the filter rejects is never fetched. *)
Theorem Process_filters_all_fetches_allowed env allowed t :
  os_Create env (zipFileName_of (ID t)) = None →
  let r := Process env allowed t in
  omap filtered_url (trace r) = FileURLs t
  ∧ omap fetched_url (trace r) = allowed_urls env allowed 0 (FileURLs t)
  ∧ omap fetched_url (trace r) `sublist_of` FileURLs t.
Proof.
  intros Hc r. subst r.
  destruct (Process_created env allowed t Hc) as (st & Hst & -> & _).
  cbn [trace]. rewrite !omap_app. subst st.
  destruct (Process_loop_calls env allowed (ID t) (FileURLs t) 0
              (mkPassState [] []
                 [Log ("Processing task " +:+ ID t); OsCreate (zipFileName_of (ID t))]))
    as [-> ->].
  simpl. rewrite !app_nil_r. split_and!; try done.
  apply allowed_urls_sublist.
Qed.

Lemma file_error_not_allowed env allowed i fileURL :
  isAllowedExtension (range_order env i) fileURL allowed = false →
  file_error env allowed i fileURL
  = Some ("file extension not allowed: " +:+ fileURL).
Proof. intros Hal. unfold file_error. by rewrite Hal. Qed.

Lemma Process_file_rejected env allowed id i fileURL st :
  isAllowedExtension (range_order env i) fileURL allowed = false →
  entries (Process_file env allowed id i fileURL st) = entries st.
Proof. intros Hal. unfold Process_file. by rewrite Hal. Qed.

Lemma Process_loop_all_rejected env allowed id urls : ∀ i st,
  (∀ j u, urls !! j = Some u →
          isAllowedExtension (range_order env (i + j)) u allowed = false) →
  entries (Process_loop env allowed id i urls st) = entries st
  ∧ allowed_urls env allowed i urls = []
  ∧ file_errors env allowed i urls
    = (λ u, "file extension not allowed: " +:+ u) <$> urls.
Proof.
  induction urls as [|u urls IH]; intros i st Hrej; simpl; [done|].
  assert (isAllowedExtension (range_order env i) u allowed = false) as Hu.
  { specialize (Hrej 0%nat u eq_refl). by rewrite Nat.add_0_r in Hrej. }
  destruct (IH (S i) (Process_file env allowed id i u st)) as (-> & -> & ->).
  { intros j v Hv. specialize (Hrej (S j) v Hv).
    by replace (S i + j)%nat with (i + S j)%nat by lia. }
  by rewrite Process_file_rejected, file_error_not_allowed, Hu by done.
Qed.

(** X2. When the filter rejects every URL of the task (each at its
    position), a pass whose archive is created fetches nothing, leaves
    the archive without entries, and still ends Done, with one "file
    extension not allowed" message per submitted URL, in submission
    order. *)
Theorem Process_all_rejected env allowed t :
  os_Create env (zipFileName_of (ID t)) = None →
  (∀ j u, FileURLs t !! j = Some u →
          isAllowedExtension (range_order env j) u allowed = false) →
  let r := Process env allowed t in
  archive r = Some []
  ∧ omap fetched_url (trace r) = []
  ∧ Status (task r) = StatusDone
  ∧ file_errors env allowed 0 (FileURLs t)
    = (λ u, "file extension not allowed: " +:+ u) <$> FileURLs t
  ∧ (FileURLs t ≠ [] →
     ErrorDetails (task r)
     = strings_Join ((λ u, "file extension not allowed: " +:+ u) <$> FileURLs t)
                    "; ").
Proof.
  intros Hc Hrej r. subst r.
  destruct (Process_created env allowed t Hc) as (st & Hst & -> & Herr).
  cbn [trace archive task].
  destruct (Process_loop_all_rejected env allowed (ID t) (FileURLs t) 0
              (mkPassState [] []
                 [Log ("Processing task " +:+ ID t); OsCreate (zipFileName_of (ID t))])
              Hrej) as (Hent & Hall & Hmsgs).
  destruct (Process_end_fields (errors st) (Process_begin t))
    as (Hs & _ & He & _).
  split_and!.
  - by rewrite Hst, Hent.
  - rewrite omap_app. subst st.
    destruct (Process_loop_calls env allowed (ID t) (FileURLs t) 0
                (mkPassState [] []
                   [Log ("Processing task " +:+ ID t);
                    OsCreate (zipFileName_of (ID t))])) as [_ ->].
    by rewrite Hall.
  - exact Hs.
  - exact Hmsgs.
  - intros Hne. rewrite He, Herr, Hmsgs.
    destruct (FileURLs t); [done|]. by rewrite decide_False.
Qed.

(** What one iteration adds to the archive. *)
Lemma Process_file_entry_cases env allowed id i fileURL st :
  ∃ es,
    entries (Process_file env allowed id i fileURL st) = entries st ++ es
    ∧ (es = [] ∨ ∃ written, es = [(filepath_Base fileURL, written)])
    ∧ (es = [] → is_Some (file_error env allowed i fileURL))
    ∧ (∀ resp, file_success env allowed i fileURL resp →
               es = [(filepath_Base fileURL, Body resp)]
               ∧ file_error env allowed i fileURL = None).
Proof.
  unfold Process_file, file_error, file_success.
  destruct (isAllowedExtension _ _ _); simpl.
  2:{ exists []. rewrite app_nil_r. split_and!; eauto. by intros resp [? _]. }
  destruct (http_Get env i fileURL) as [err|resp]; simpl.
  { exists []. rewrite app_nil_r. split_and!; eauto. by intros resp (_ & ? & _). }
  destruct (StatusCode resp =? http_StatusOK) eqn:Hcode; simpl.
  2:{ exists []. rewrite app_nil_r. split_and!; eauto.
      intros resp' (_ & [= <-] & Hc & _). rewrite Hc in Hcode. done. }
  destruct (zip_Create env i _) eqn:Hz; simpl.
  { exists []. rewrite app_nil_r. split_and!; eauto.
    intros resp' (_ & _ & _ & ? & _). congruence. }
  destruct (io_Copy env i _ _) as [[written err]|] eqn:Hcp; simpl.
  - eexists. split_and!; [done|eauto|done|].
    intros resp' (_ & [= <-] & _ & _ & ?). congruence.
  - eexists. split_and!; [done|eauto|done|].
    by intros resp' (_ & [= <-] & _).
Qed.

Lemma Process_loop_entries env allowed id urls : ∀ i st,
  ∃ es,
    entries (Process_loop env allowed id i urls st) = entries st ++ es
    ∧ es.*1 `sublist_of` (filepath_Base <$> urls)
    ∧ (length urls ≤ length es + length (file_errors env allowed i urls))%nat
    ∧ (∀ j fileURL resp,
         urls !! j = Some fileURL →
         file_success env allowed (i + j) fileURL resp →
         (filepath_Base fileURL, Body resp) ∈ es).
Proof.
  induction urls as [|u urls IH]; intros i st.
  - exists []. simpl. rewrite app_nil_r. split_and!; try done.
  - destruct (Process_file_entry_cases env allowed id i u st)
      as (e1 & He1 & Hshape & Hnone & Hsucc).
    destruct (IH (S i) (Process_file env allowed id i u st))
      as (es & Hes & Hsub & Hlen & Hin).
    exists (e1 ++ es). cbn [Process_loop]. split_and!.
    + by rewrite Hes, He1, <-app_assoc.
    + rewrite fmap_app, fmap_cons.
      destruct Hshape as [->|[w ->]]; simpl.
      * by apply sublist_cons.
      * by apply sublist_skip.
    + cbn [file_errors]. rewrite !length_app. simpl.
      destruct Hshape as [->|[w ->]]; simpl.
      * destruct (Hnone eq_refl) as [m ->]. simpl. lia.
      * lia.
    + intros [|j] fileURL resp Hl Hs; simpl in Hl.
      * simplify_eq. rewrite Nat.add_0_r in Hs.
        destruct (Hsucc _ Hs) as [-> _]. apply elem_of_app. left.
        by apply list_elem_of_singleton.
      * apply elem_of_app. right. eapply Hin; [done|].
        by replace (S i + j)%nat with (i + S j)%nat by lia.
Qed.

(** X3. In a pass whose archive is created, a file that passes the
    filter, is answered 200 and is written without error is in the
    archive, under [filepath.Base] of its URL and with exactly the body
    of the response; and it has no error message. *)
Theorem Process_success_is_archived env allowed t i fileURL resp :
  os_Create env (zipFileName_of (ID t)) = None →
  FileURLs t !! i = Some fileURL →
  file_success env allowed i fileURL resp →
  ∃ es, archive (Process env allowed t) = Some es
        ∧ (filepath_Base fileURL, Body resp) ∈ es
        ∧ file_error env allowed i fileURL = None.
Proof.
  intros Hc Hl Hs.
  destruct (Process_created env allowed t Hc) as (st & Hst & -> & _).
  cbn [archive]. eexists. split; [done|]. subst st.
  destruct (Process_loop_entries env allowed (ID t) (FileURLs t) 0
              (mkPassState [] []
                 [Log ("Processing task " +:+ ID t); OsCreate (zipFileName_of (ID t))]))
    as (es & -> & _ & _ & Hin).
  split; [by eapply Hin|].
  by destruct (Process_file_entry_cases env allowed (ID t) i fileURL
                 (mkPassState [] [] [])) as (? & _ & _ & _ & Hsucc);
    destruct (Hsucc _ Hs).
Qed.

(** X4. In a pass whose archive is created, the names of the archive
    entries, in the order written, are [filepath.Base] of submitted URLs
    in submission order (a subsequence, duplicates kept); no entry is
    written that comes from no URL, and every URL is accounted for by an
    entry or by an error message: with N files, K messages and E
    entries, E ≤ N ≤ E + K. *)
Theorem Process_entries_follow_submission env allowed t :
  os_Create env (zipFileName_of (ID t)) = None →
  ∃ es, archive (Process env allowed t) = Some es
        ∧ es.*1 `sublist_of` (filepath_Base <$> FileURLs t)
        ∧ (length es ≤ length (FileURLs t))%nat
        ∧ (length (FileURLs t)
           ≤ length es + length (file_errors env allowed 0 (FileURLs t)))%nat.
Proof.
  intros Hc.
  destruct (Process_created env allowed t Hc) as (st & Hst & -> & _).
  cbn [archive]. eexists. split; [done|]. subst st.
  destruct (Process_loop_entries env allowed (ID t) (FileURLs t) 0
              (mkPassState [] []
                 [Log ("Processing task " +:+ ID t); OsCreate (zipFileName_of (ID t))]))
    as (es & -> & Hsub & Hlen & _).
  simpl. split_and!; [done| |done].
  apply sublist_length in Hsub. by rewrite !length_fmap in Hsub.
Qed.

End PassFiles.

(** ** The extension filter: which entries and which URLs match *)

Section FilterMore.
Context `{Externals}.

Lemma append_nil_r (s : string) : s +:+ "" = s.
Proof.
  induction s as [|c s IH]; [done|].
  change (String c (s +:+ "") = String c s). by rewrite IH.
Qed.

Lemma rev_app_append q : ∀ x acc,
  String.rev_app (q +:+ x) acc = String.rev_app x (String.rev_app q acc).
Proof.
  induction q as [|c q IH]; intros x acc; [done|].
  change (String.rev_app (q +:+ x) (String c acc)
          = String.rev_app x (String.rev_app q (String c acc))).
  apply IH.
Qed.

(** The backward scan of [filepath.Ext] over a run of bytes that are
    neither dots nor separators only moves them to the suffix. *)
Lemma Ext_scan_plain r : ∀ tail suffix,
  plain_name r = true →
  Ext_scan (String.rev_app r tail) suffix = Ext_scan tail (r +:+ suffix).
Proof.
  induction r as [|c r IH]; intros tail suffix Hp; [done|].
  simpl in Hp. apply andb_prop in Hp as [[Hs Hd]%andb_prop Hr].
  cbn [String.rev_app]. rewrite IH by done. cbn [Ext_scan].
  apply negb_true_iff in Hs, Hd. by rewrite Hs, Hd.
Qed.

Lemma Ext_suffix q r :
  plain_name r = true →
  filepath_Ext (q +:+ String "." r) = String "." r.
Proof.
  intros Hp. unfold filepath_Ext, String.rev.
  rewrite rev_app_append. cbn [String.rev_app].
  rewrite Ext_scan_plain by done. cbn. by rewrite append_nil_r.
Qed.

Lemma Ext_scan_shape rpath : ∀ suffix,
  plain_name suffix = true →
  Ext_scan rpath suffix = ""
  ∨ ∃ r, Ext_scan rpath suffix = String "." r ∧ plain_name r = true.
Proof.
  induction rpath as [|c rpath IH]; intros suffix Hp; cbn [Ext_scan]; [by left|].
  destruct (IsPathSeparator c) eqn:Hs; [by left|].
  destruct (Ascii.eqb c ".") eqn:Hd.
  - apply Ascii.eqb_eq in Hd as ->. right. by exists suffix.
  - apply IH. simpl. by rewrite Hs, Hd, Hp.
Qed.

Lemma lowered_ext_live s : live_entry (lowered_ext s).
Proof.
  unfold lowered_ext, filepath_Ext.
  destruct (Ext_scan_shape (String.rev s) "" eq_refl) as [->|(r & -> & Hp)].
  - by left.
  - right. by exists r.
Qed.

Lemma determined_live u visited :
  live_entry (default "" (determined_extension u visited)).
Proof.
  unfold determined_extension.
  destruct (decide (lowered_ext (Path u) = "")) as [Hempty|Hext].
  - destruct (first_nonempty _) as [ext|] eqn:Hf; [|by left].
    apply first_nonempty_Some in Hf as [_ Hin].
    apply list_elem_of_fmap in Hin as (v & -> & _). apply lowered_ext_live.
  - apply lowered_ext_live.
Qed.

(** X5. The answer of the filter depends on the allow-list only through
    the entries it can ever match: the empty string, and what
    [strings.ToLower] returns for a dot followed by bytes without dot or
    slash. Two allow-lists that hold the same such entries give the same
    answer, for every URL, parser and iteration order; an entry of
    another form is dead. *)
Theorem isAllowedExtension_dead_entries order fileURL allowed allowed' :
  (∀ e, live_entry e → (e ∈ allowed ↔ e ∈ allowed')) →
  isAllowedExtension order fileURL allowed
  = isAllowedExtension order fileURL allowed'.
Proof.
  intros Hsame. rewrite !isAllowedExtension_unfold.
  destruct (url_Parse fileURL) as [u|]; [|done].
  pose proof (determined_live u (order (Query u))) as Hlive.
  pose proof (Hsame _ Hlive) as Hiff.
  rewrite <-!match_allowed_elem_of in Hiff.
  destruct (match_allowed _ allowed), (match_allowed _ allowed');
    try done; destruct Hiff as [H1 H2]; [by rewrite H1|by rewrite H2].
Qed.

(** X6. A URL that parses and whose path ends in a dot followed by bytes
    without dot or slash is allowed as soon as what [strings.ToLower]
    returns for that extension is in the allow-list: whatever the letter
    case in the URL, whatever the query parameters and the order in which
    they are visited. *)
Theorem isAllowedExtension_path_extension order fileURL allowed u q r :
  url_Parse fileURL = Some u →
  Path u = q +:+ String "." r →
  plain_name r = true →
  strings_ToLower (String "." r) ≠ "" →
  strings_ToLower (String "." r) ∈ allowed →
  isAllowedExtension order fileURL allowed = true.
Proof.
  intros Hu Hpath Hp Hne Hin. rewrite isAllowedExtension_unfold, Hu.
  unfold determined_extension, lowered_ext. rewrite Hpath, Ext_suffix by done.
  rewrite decide_False by done. simpl. by apply match_allowed_elem_of.
Qed.

End FilterMore.

(** ** The task manager: slots, progress, writes *)

Section ManagerMore.
Context `{Externals}.
Variable cfg : Config.
Implicit Types (s : System) (a : Action) (g : Goroutine) (t : Task).

Lemma slots_app (l1 l2 : list Goroutine) :
  slots (l1 ++ l2) = (slots l1 + slots l2)%nat.
Proof. unfold slots. by rewrite List.filter_app, length_app. Qed.

Lemma slots_replace (l gs : list Goroutine) i g :
  l !! i = Some g →
  (slots (take i l ++ gs ++ drop (S i) l) + slots [g])%nat
  = (slots l + slots gs)%nat.
Proof.
  intros Hl. rewrite <-(take_drop_middle l i g Hl) at 3.
  change (g :: drop (S i) l) with ([g] ++ drop (S i) l).
  rewrite !slots_app. lia.
Qed.

Lemma step_goroutine_slots env g s h n gs evs :
  step_goroutine cfg env g s = Some (h, n, gs, evs) →
  (n + slots [g])%nat = (concurrentTaskSema s + slots gs)%nat
  ∧ (Z.of_nat (concurrentTaskSema s) ≤ MaxConcurrentTasks cfg →
     Z.of_nat n ≤ MaxConcurrentTasks cfg).
Proof.
  intros Hst. unfold slots.
  destruct g as [a0|a0|a0|a0|a0 st|]; simpl in Hst.
  - destruct (heap s !! a0); simpl in Hst; [|done].
    destruct (_ >=? _); simplify_eq; simpl; split; auto with lia.
  - destruct (Z.ltb_spec (Z.of_nat (concurrentTaskSema s)) (MaxConcurrentTasks cfg));
      simplify_eq; simpl; split; lia.
  - simplify_eq; simpl; split; auto with lia.
  - destruct (heap s !! a0); simpl in Hst; [|done].
    destruct (Process_files _ _ _ _) as [[msg tr]|st]; simplify_eq; simpl;
      split; auto with lia.
  - simplify_eq; simpl; split; auto with lia.
  - destruct (concurrentTaskSema s); simplify_eq; simpl; split; lia.
Qed.

Lemma slots_exec a s s' evs :
  exec cfg a s = Some (s', evs) →
  concurrentTaskSema s = passes s
  ∧ Z.of_nat (concurrentTaskSema s) ≤ MaxConcurrentTasks cfg →
  concurrentTaskSema s' = passes s'
  ∧ Z.of_nat (concurrentTaskSema s') ≤ MaxConcurrentTasks cfg.
Proof.
  unfold passes. intros Hex [Heq Hle].
  destruct a as [uuid|taskID body|i env]; simpl in Hex.
  - unfold CreateTaskHandler in Hex. destruct (_ >=? _); by simplify_eq.
  - unfold AddFileHandler in Hex.
    destruct (Tasks s !! taskID); [|by simplify_eq].
    destruct (Decode_body body); simplify_eq; [|done].
    cbn [concurrentTaskSema goroutines]. rewrite slots_app.
    unfold slots at 2. simpl. split; [lia|done].
  - destruct (goroutines s !! i) as [g|] eqn:Hg; simpl in Hex; [|done].
    destruct (step_goroutine cfg env g s) as [[[[h n] gs] evs']|] eqn:Hst;
      simpl in Hex; [|done].
    simplify_eq. cbn [concurrentTaskSema goroutines].
    destruct (step_goroutine_slots _ _ _ _ _ _ _ Hst) as [Hn Hcap].
    pose proof (slots_replace _ gs _ _ Hg). split; [lia|auto].
Qed.

Lemma slots_run acts : ∀ s s' evs,
  run cfg acts s = Some (s', evs) →
  concurrentTaskSema s = passes s
  ∧ Z.of_nat (concurrentTaskSema s) ≤ MaxConcurrentTasks cfg →
  concurrentTaskSema s' = passes s'
  ∧ Z.of_nat (concurrentTaskSema s') ≤ MaxConcurrentTasks cfg.
Proof.
  induction acts as [|a acts IH]; intros s s' evs Hrun Hs; simpl in Hrun.
  - by simplify_eq.
  - destruct (exec cfg a s) as [[s1 evs1]|] eqn:Hex; simpl in Hrun; [|done].
    destruct (run cfg acts s1) as [[s2 evs2]|] eqn:Hr; simpl in Hrun; [|done].
    simplify_eq. eauto using slots_exec.
Qed.

Lemma reachable_slots s :
  reachable cfg s →
  concurrentTaskSema s = passes s
  ∧ Z.of_nat (concurrentTaskSema s) ≤ MaxConcurrentTasks cfg.
Proof.
  intros (s0 & acts & evs & Hnew & Hrun).
  eapply slots_run; [exact Hrun|].
  unfold NewTaskManager in Hnew.
  destruct (Z.ltb_spec (MaxConcurrentTasks cfg) 0); simplify_eq.
  split; [done|]. simpl. lia.
Qed.

(** X7. In every reachable state the number of elements in the channel
    equals the number of goroutines between the [go func] and its
    deferred receive, and it never exceeds [MaxConcurrentTasks]: at most
    that many processing passes hold a slot at any time. *)
Theorem passes_bounded_by_MaxConcurrentTasks s :
  reachable cfg s →
  concurrentTaskSema s = passes s
  ∧ Z.of_nat (passes s) ≤ MaxConcurrentTasks cfg.
Proof.
  intros [Heq Hle]%reachable_slots. split; [done|]. by rewrite <-Heq.
Qed.

Lemma slots_elem (l : list Goroutine) g :
  g ∈ l → in_pass g = true → (0 < slots l)%nat.
Proof.
  intros [l1 [l2 ->]]%list_elem_of_split Hin.
  change (g :: l2) with ([g] ++ l2). rewrite !slots_app.
  unfold slots at 2. simpl. rewrite Hin. simpl. lia.
Qed.

Lemma slots_pos_elem (l : list Goroutine) :
  (0 < slots l)%nat → ∃ j g, l !! j = Some g ∧ in_pass g = true.
Proof.
  induction l as [|g l IH]; intros Hpos; [by cbv in Hpos; lia|].
  destruct (in_pass g) eqn:Hg.
  - by exists 0%nat, g.
  - change (g :: l) with ([g] ++ l) in Hpos. rewrite slots_app in Hpos.
    unfold slots at 1 in Hpos. simpl in Hpos. rewrite Hg in Hpos.
    destruct IH as (j & g' & Hl & Hin); [simpl in Hpos; lia|].
    by exists (S j), g'.
Qed.

(** X8. The semaphore channel does not deadlock by itself. In every
    reachable state the deferred receive of a pass never blocks: it frees
    exactly one slot and ends its goroutine. And with at least one slot
    configured, whenever a handler stands at the channel send while every
    slot is taken, some other goroutine is inside a pass and holds a
    slot, so the wait ends when a pass ends. (Whether a pass ends depends
    on its external calls returning, which this property does not
    cover.) *)
Theorem slot_wait_is_behind_a_pass s :
  reachable cfg s →
  (∀ i env, goroutines s !! i = Some Go_release →
            ∃ s', exec cfg (Run i env) s = Some (s', [])
                  ∧ S (concurrentTaskSema s') = concurrentTaskSema s
                  ∧ goroutines s' = delete i (goroutines s)
                  ∧ heap s' = heap s)
  ∧ (∀ i addr,
       0 < MaxConcurrentTasks cfg →
       goroutines s !! i = Some (AddFile_send addr) →
       MaxConcurrentTasks cfg ≤ Z.of_nat (concurrentTaskSema s) →
       ∃ j g, goroutines s !! j = Some g ∧ in_pass g = true ∧ j ≠ i).
Proof.
  intros Hreach. pose proof (reachable_slots _ Hreach) as [Heq _]. split.
  - intros i env Hg.
    assert (0 < passes s)%nat as Hpos.
    { eapply slots_elem; [by eapply list_elem_of_lookup_2|done]. }
    rewrite <-Heq in Hpos. rewrite (Run_at cfg env s i _ Hg). simpl.
    destruct (concurrentTaskSema s) as [|n]; [lia|]. simpl.
    eexists. split_and!; try done. simpl. by rewrite delete_take_drop.
  - intros i addr Hcap Hg Hfull.
    destruct (slots_pos_elem (goroutines s)) as (j & g & Hl & Hin).
    { fold (passes s). rewrite <-Heq. lia. }
    exists j, g. split_and!; [done|done|].
    intros ->. rewrite Hg in Hl. by simplify_eq.
Qed.

(** *** A pass run without interleaving *)

Lemma Run_replace env s i g g' h n evs :
  goroutines s !! i = Some g →
  step_goroutine cfg env g s = Some (h, n, [g'], evs) →
  exec cfg (Run i env) s
  = Some (mkSystem h (Tasks s) n (<[i:=g']> (goroutines s)), evs).
Proof.
  intros Hg Hst. rewrite (Run_at cfg env s i g Hg), Hst. simpl.
  by rewrite (insert_take_drop _ _ _ (lookup_lt_Some _ _ _ Hg)).
Qed.

Lemma Run_remove env s i g h n evs :
  goroutines s !! i = Some g →
  step_goroutine cfg env g s = Some (h, n, [], evs) →
  exec cfg (Run i env) s
  = Some (mkSystem h (Tasks s) n (delete i (goroutines s)), evs).
Proof.
  intros Hg Hst. rewrite (Run_at cfg env s i g Hg), Hst. simpl.
  by rewrite delete_take_drop.
Qed.

Lemma alter_insert (f : Task → Task) (h : list Task) addr t :
  h !! addr = Some t → alter f addr h = <[addr := f t]> h.
Proof.
  intros Hl. apply list_eq. intros j. destruct (decide (j = addr)) as [->|Hne].
  - rewrite list_lookup_alter_eq, Hl, list_lookup_insert_eq; [done|].
    by eapply lookup_lt_Some.
  - by rewrite list_lookup_alter_ne, list_lookup_insert_ne.
Qed.

Lemma delete_insert_same (l : list Goroutine) i g :
  delete i (<[i:=g]> l) = delete i l.
Proof.
  rewrite !delete_take_drop.
  by rewrite take_insert_ge, drop_insert_lt by lia.
Qed.

Lemma pass_steps env s i addr t :
  reachable cfg s →
  goroutines s !! i = Some (Go_Process addr) →
  heap s !! addr = Some t →
  ∃ k s',
    (k ≤ 4)%nat
    ∧ run cfg (replicate k (Run i env)) s = Some (s', [])
    ∧ heap s' = <[addr := task (Process env (AllowedExtensions cfg) t)]> (heap s)
    ∧ goroutines s' = delete i (goroutines s)
    ∧ S (concurrentTaskSema s') = concurrentTaskSema s
    ∧ Tasks s' = Tasks s.
Proof.
  intros Hreach Hg Hl.
  pose proof (reachable_slots _ Hreach) as [Heq _].
  assert (0 < passes s)%nat as Hpos.
  { eapply slots_elem; [by eapply list_elem_of_lookup_2|done]. }
  rewrite <-Heq in Hpos.
  destruct (concurrentTaskSema s) as [|n] eqn:Hn; [lia|].
  pose proof (lookup_lt_Some _ _ _ Hg) as Hi.
  pose proof (lookup_lt_Some _ _ _ Hl) as Ha.
  (* first step: [Status = StatusProcessing] *)
  pose proof (Run_replace env s i _ (Process_running addr) _ _ _ Hg eq_refl) as H1.
  rewrite (alter_insert _ _ _ _ Hl), Hn in H1.
  set (s1 := mkSystem (<[addr:=Process_begin t]> (heap s)) (Tasks s) (S n)
               (<[i:=Process_running addr]> (goroutines s))) in *.
  assert (goroutines s1 !! i = Some (Process_running addr)) as Hg1
    by (by apply list_lookup_insert_eq).
  assert (heap s1 !! addr = Some (Process_begin t)) as Hl1
    by (by apply list_lookup_insert_eq).
  unfold Process.
  destruct (Process_files env (AllowedExtensions cfg) (ID (Process_begin t))
              (FileURLs (Process_begin t))) as [[msg tr]|st] eqn:Hfiles.
  - (* the archive cannot be created *)
    assert (step_goroutine cfg env (Process_running addr) s1
            = Some (<[addr:=setError msg (Process_begin t)]> (heap s), S n,
                    [Go_release], [])) as Hst2.
    { cbn [step_goroutine]. rewrite Hl1.
      change (Some (Process_begin t) ≫= ?f) with (f (Process_begin t)).
      cbv beta. rewrite Hfiles.
      rewrite (alter_insert _ _ _ _ Hl1). subst s1. cbn [heap].
      by rewrite list_insert_insert_eq. }
    pose proof (Run_replace env s1 i _ _ _ _ _ Hg1 Hst2) as H2.
    set (s2 := mkSystem (<[addr:=setError msg (Process_begin t)]> (heap s))
                 (Tasks s1) (S n) (<[i:=Go_release]> (goroutines s1))) in *.
    assert (goroutines s2 !! i = Some Go_release) as Hg2.
    { apply list_lookup_insert_eq. subst s1. cbn [goroutines].
      by rewrite length_insert. }
    pose proof (Run_remove env s2 i _ _ _ _ Hg2 eq_refl) as H3.
    exists 3%nat. eexists. split_and!; [lia| |..].
    + cbn [replicate].
      change (@nil Event) with (@nil Event ++ ([] ++ [])).
      eapply run_cons_Some; [exact H1|].
      eapply run_cons_Some; [exact H2|]. apply run_one. exact H3.
    + done.
    + subst s2 s1. cbn [goroutines]. by rewrite !delete_insert_same.
    + done.
    + done.
  - (* the archive is created *)
    assert (step_goroutine cfg env (Process_running addr) s1
            = Some (heap s1, S n, [Process_finishing addr st], [])) as Hst2.
    { cbn [step_goroutine]. rewrite Hl1.
      change (Some (Process_begin t) ≫= ?f) with (f (Process_begin t)).
      cbv beta. by rewrite Hfiles. }
    pose proof (Run_replace env s1 i _ _ _ _ _ Hg1 Hst2) as H2.
    set (s2 := mkSystem (heap s1) (Tasks s1) (S n)
                 (<[i:=Process_finishing addr st]> (goroutines s1))) in *.
    assert (goroutines s2 !! i = Some (Process_finishing addr st)) as Hg2.
    { apply list_lookup_insert_eq. subst s1. cbn [goroutines].
      by rewrite length_insert. }
    pose proof (Run_replace env s2 i _ Go_release _ _ _ Hg2 eq_refl) as H3.
    assert (heap s2 !! addr = Some (Process_begin t)) as Hl2 by done.
    rewrite (alter_insert _ _ _ _ Hl2) in H3.
    set (s3 := mkSystem (<[addr:=Process_end (errors st) (Process_begin t)]> (heap s2))
                 (Tasks s2) (concurrentTaskSema s2)
                 (<[i:=Go_release]> (goroutines s2))) in *.
    assert (goroutines s3 !! i = Some Go_release) as Hg3.
    { apply list_lookup_insert_eq. subst s2 s1. cbn [goroutines].
      by rewrite !length_insert. }
    pose proof (Run_remove env s3 i _ _ _ _ Hg3 eq_refl) as H4.
    exists 4%nat. eexists. split_and!; [lia| |..].
    + cbn [replicate].
      change (@nil Event) with (@nil Event ++ ([] ++ ([] ++ []))).
      eapply run_cons_Some; [exact H1|].
      eapply run_cons_Some; [exact H2|].
      eapply run_cons_Some; [exact H3|]. apply run_one. exact H4.
    + subst s3 s2 s1. cbn [heap task]. by rewrite list_insert_insert_eq.
    + subst s3 s2 s1. cbn [goroutines]. by rewrite !delete_insert_same.
    + done.
    + done.
Qed.

(** X9. A pass that is scheduled without interleaving does what
    [Process] does: from a reachable state in which the [go func] for a
    task has been started, at most four steps of that goroutine, in one
    world, leave the task as [Process] returns it, remove the goroutine
    and give its slot back, without an event and without touching any
    other task. *)
Theorem pass_alone_is_Process env s i addr t :
  reachable cfg s →
  goroutines s !! i = Some (Go_Process addr) →
  heap s !! addr = Some t →
  ∃ k s',
    (k ≤ 4)%nat
    ∧ run cfg (replicate k (Run i env)) s = Some (s', [])
    ∧ heap s' = <[addr := task (Process env (AllowedExtensions cfg) t)]> (heap s)
    ∧ goroutines s' = delete i (goroutines s)
    ∧ S (concurrentTaskSema s') = concurrentTaskSema s
    ∧ Tasks s' = Tasks s.
Proof. apply pass_steps. Qed.

Lemma Process_status env allowed t :
  Status (task (Process env allowed t)) = StatusDone
  ∨ Status (task (Process env allowed t)) = StatusError.
Proof.
  unfold Process. destruct (Process_files _ _ _ _) as [[msg tr]|st]; simpl.
  - by right.
  - by left.
Qed.

Lemma delete_last (gs : list Goroutine) g :
  delete (length gs) (gs ++ [g]) = gs.
Proof.
  rewrite delete_take_drop, take_app_length.
  rewrite drop_ge by (rewrite length_app; simpl; lia).
  by rewrite app_nil_r.
Qed.

(** X17. End to end: in a reachable state with a free slot, an append
    that brings a task to the threshold leads, once its handler and the
    pass it launches are scheduled, to the task being exactly what
    [Process] returns for it (status Done or Error), with one launch and
    one 202 as the only events; the slot is given back, no goroutine is
    left, and no other task is touched. *)
Theorem append_at_threshold_end_to_end env s taskID body addr tk url :
  reachable cfg s →
  Tasks s !! taskID = Some addr →
  heap s !! addr = Some tk →
  Decode_body body = Some url →
  MaxFilesPerTask cfg ≤ Z.of_nat (length (FileURLs tk)) + 1 →
  Z.of_nat (concurrentTaskSema s) < MaxConcurrentTasks cfg →
  ∃ acts s' done,
    run cfg (AddFileReq taskID body :: acts) s
    = Some (s', [Launch addr; Respond http_StatusAccepted None])
    ∧ done = task (Process env (AllowedExtensions cfg)
                     (SetResultURL (AddFile url tk)))
    ∧ heap s' = <[addr := done]> (heap s)
    ∧ (Status done = StatusDone ∨ Status done = StatusError)
    ∧ FileURLs done = FileURLs tk ++ [url]
    ∧ goroutines s' = goroutines s
    ∧ concurrentTaskSema s' = concurrentTaskSema s
    ∧ Tasks s' = Tasks s.
Proof.
  intros Hreach Ht Hl Hd Hth Hfree.
  pose proof (lookup_lt_Some _ _ _ Hl) as Ha.
  (* the request and the length check *)
  pose proof (AddFileHandler_records cfg s taskID body addr url Ht Hd) as H1.
  rewrite (alter_insert _ _ _ _ Hl) in H1.
  set (s1 := mkSystem (<[addr:=AddFile url tk]> (heap s)) (Tasks s)
               (concurrentTaskSema s) (goroutines s ++ [AddFile_check addr])) in *.
  assert (heap s1 !! addr = Some (AddFile url tk)) as Hl1
    by (by apply list_lookup_insert_eq).
  assert (at_threshold cfg (AddFile url tk)) as Hth1.
  { unfold at_threshold, AddFile. cbn [FileURLs with_FileURLs].
    rewrite length_app. simpl. lia. }
  pose proof (Run_last cfg env s1 (goroutines s) (AddFile_check addr) eq_refl) as H2.
  rewrite (AddFile_check_at_threshold cfg env s1 addr _ Hl1 Hth1) in H2.
  rewrite (alter_insert _ _ _ _ Hl1) in H2. simpl in H2.
  rewrite list_insert_insert_eq in H2.
  set (s2 := mkSystem (<[addr:=SetResultURL (AddFile url tk)]> (heap s)) (Tasks s)
               (concurrentTaskSema s) (goroutines s ++ [AddFile_send addr])) in *.
  (* the send *)
  pose proof (Run_last cfg env s2 (goroutines s) (AddFile_send addr) eq_refl) as H3.
  rewrite AddFile_send_free in H3 by done. simpl in H3.
  set (s3 := mkSystem (<[addr:=SetResultURL (AddFile url tk)]> (heap s)) (Tasks s)
               (S (concurrentTaskSema s)) (goroutines s ++ [Go_Process addr])) in *.
  assert (run cfg [AddFileReq taskID body; Run (length (goroutines s)) env;
                   Run (length (goroutines s)) env] s
          = Some (s3, [Launch addr; Respond http_StatusAccepted None])) as Hrun3.
  { change [Launch addr; Respond http_StatusAccepted None]
      with ([] ++ ([] ++ [Launch addr; Respond http_StatusAccepted None])).
    eapply run_cons_Some; [exact H1|].
    eapply run_cons_Some; [exact H2|]. apply run_one. exact H3. }
  (* the pass *)
  destruct (pass_steps env s3 (length (goroutines s)) addr
              (SetResultURL (AddFile url tk)))
    as (k & s' & _ & Hrun' & Hheap & Hgs & Hsema & Htasks).
  { by eapply reachable_run. }
  { subst s3. cbn [goroutines]. by apply list_lookup_middle. }
  { subst s3. cbn [heap]. by apply list_lookup_insert_eq. }
  exists ([Run (length (goroutines s)) env; Run (length (goroutines s)) env]
          ++ replicate k (Run (length (goroutines s)) env)), s'.
  eexists. split_and!.
  - change (AddFileReq taskID body :: ?l ++ ?r)
      with ((AddFileReq taskID body :: l) ++ r).
    rewrite <-(app_nil_r [Launch addr; Respond http_StatusAccepted None]).
    eapply run_app; [exact Hrun3|exact Hrun'].
  - reflexivity.
  - rewrite Hheap. subst s3. cbn [heap]. by rewrite list_insert_insert_eq.
  - apply Process_status.
  - unfold Process.
    destruct (Process_files _ _ _ _) as [[msg tr]|st]; cbn [task]; [done|].
    unfold Process_end. by destruct (_ <? _)%nat.
  - rewrite Hgs. subst s3. cbn [goroutines]. apply delete_last.
  - subst s3. cbn [concurrentTaskSema] in Hsema. lia.
  - by rewrite Htasks.
Qed.

(** *** Who writes what *)

Lemma exec_task_write a s s' evs addr t :
  exec cfg a s = Some (s', evs) →
  heap s !! addr = Some t →
  ∃ t', heap s' !! addr = Some t' ∧ task_write cfg a s addr t t'.
Proof.
  intros Hex Hl. destruct a as [uuid|taskID body|i env]; simpl in Hex.
  - unfold CreateTaskHandler in Hex.
    destruct (_ >=? _); simplify_eq; simpl.
    + eexists; split; [done|constructor].
    + exists t. split; [by apply lookup_app_l_Some|constructor].
  - unfold AddFileHandler in Hex.
    destruct (Tasks s !! taskID) as [a0|] eqn:Ha0;
      [|simplify_eq; eauto using task_write].
    destruct (Decode_body body) as [url|] eqn:Hd; simplify_eq; simpl;
      [|eauto using task_write].
    destruct (alter_lookup_cases (AddFile url) _ a0 _ _ Hl) as [[-> ->]|[_ ->]];
      eauto using task_write.
  - destruct (goroutines s !! i) as [g|] eqn:Hg; simpl in Hex; [|done].
    destruct (step_goroutine cfg env g s) as [[[[h n] gs] evs']|] eqn:Hst;
      simpl in Hex; [|done].
    simplify_eq; simpl.
    destruct g as [a0|a0|a0|a0|a0 st|]; simpl in Hst.
    + destruct (heap s !! a0) as [tk|] eqn:Htk; simpl in Hst; [|done].
      destruct (_ >=? _) eqn:Hge; simplify_eq; [|eauto using task_write].
      destruct (alter_lookup_cases SetResultURL _ a0 _ _ Hl) as [[-> ->]|[_ ->]];
        [|eauto using task_write].
      eexists. split; [done|]. eapply tw_SetResultURL; [done..|].
      simplify_eq. by apply Z.geb_le.
    + destruct (_ <? _); simplify_eq; eauto using task_write.
    + simplify_eq.
      destruct (alter_lookup_cases Process_begin _ a0 _ _ Hl) as [[-> ->]|[_ ->]];
        eauto using task_write.
    + destruct (heap s !! a0) as [tk|] eqn:Htk; simpl in Hst; [|done].
      destruct (Process_files _ _ _ _) as [[msg tr]|st] eqn:Hfiles; simplify_eq;
        [|eauto using task_write].
      destruct (alter_lookup_cases (setError msg) _ a0 _ _ Hl) as [[-> ->]|[_ ->]];
        [|eauto using task_write].
      simplify_eq. eauto using task_write.
    + simplify_eq.
      destruct (alter_lookup_cases (Process_end (errors st)) _ a0 _ _ Hl)
        as [[-> ->]|[_ ->]]; eauto using task_write.
    + destruct (concurrentTaskSema s); simplify_eq; eauto using task_write.
Qed.

(** A task that appears at an address during a step is a new task. *)
Lemma exec_task_new a s s' evs addr t' :
  exec cfg a s = Some (s', evs) →
  heap s !! addr = None →
  heap s' !! addr = Some t' →
  ∃ uuid, a = CreateTaskReq uuid ∧ t' = NewTask uuid.
Proof.
  intros Hex Hn Hl'.
  assert (∀ (f : Task → Task) (a0 : nat),
            alter f a0 (heap s) !! addr = Some t' → False) as Halt.
  { intros f a0 Hx. destruct (decide (a0 = addr)) as [->|Hne].
    - by rewrite list_lookup_alter_eq, Hn in Hx.
    - by rewrite list_lookup_alter_ne, Hn in Hx. }
  destruct a as [uuid|taskID body|i env]; simpl in Hex.
  - unfold CreateTaskHandler in Hex.
    destruct (_ >=? _); simplify_eq.
    exists uuid. split; [done|]. cbn [heap] in Hl'.
    apply lookup_ge_None_1 in Hn.
    rewrite lookup_app_r in Hl' by done.
    by apply list_lookup_singleton_Some in Hl' as [_ <-].
  - unfold AddFileHandler in Hex.
    destruct (Tasks s !! taskID) as [a0|]; [|by simplify_eq].
    destruct (Decode_body body); simplify_eq.
    by destruct (Halt _ _ Hl').
  - destruct (goroutines s !! i) as [g|]; simpl in Hex; [|done].
    destruct (step_goroutine cfg env g s) as [[[[h n] gs] evs']|] eqn:Hst;
      simpl in Hex; [|done].
    simplify_eq; cbn [heap] in *.
    destruct g as [a0|a0|a0|a0|a0 st|]; simpl in Hst.
    + destruct (heap s !! a0); simpl in Hst; [|done].
      destruct (_ >=? _); simplify_eq. by destruct (Halt _ _ Hl').
    + destruct (_ <? _); by simplify_eq.
    + simplify_eq. by destruct (Halt _ _ Hl').
    + destruct (heap s !! a0); simpl in Hst; [|done].
      destruct (Process_files _ _ _ _) as [[msg tr]|st]; simplify_eq.
      by destruct (Halt _ _ Hl').
    + simplify_eq. by destruct (Halt _ _ Hl').
    + destruct (concurrentTaskSema s); by simplify_eq.
Qed.

Lemma untouched_exec a s s' evs :
  Inv cfg s →
  exec cfg a s = Some (s', evs) →
  (∀ addr t, heap s !! addr = Some t →
     Status t ≠ StatusCreated ∨ ErrorDetails t ≠ "" → at_threshold cfg t) →
  (∀ addr t, heap s' !! addr = Some t →
     Status t ≠ StatusCreated ∨ ErrorDetails t ≠ "" → at_threshold cfg t).
Proof.
  intros [Hgs _] Hex HJ addr t' Hl' Hw.
  destruct (heap s !! addr) as [t|] eqn:Hl.
  2:{ destruct (exec_task_new _ _ _ _ _ _ Hex Hl Hl') as (uuid & _ & ->).
      by destruct Hw. }
  destruct (exec_task_write _ _ _ _ _ _ Hex Hl) as (t'' & Hl'' & Hwr).
  assert (t'' = t') as -> by congruence.
  assert (∀ i g, goroutines s !! i = Some g → in_pass_of addr g →
                 at_threshold cfg t) as Hpass.
  { intros i g Hg Hin.
    pose proof (Forall_lookup_1 _ _ _ _ Hgs Hg) as Hok.
    destruct g; simpl in Hin, Hok; try done; subst;
      destruct Hok as (tk & Htk & Hth); simplify_eq;
      first [exact Hth|exact (proj1 Hth)]. }
  destruct Hwr as [t|taskID body url t _ _ _|i env t _ _ Hth|i env t _ Hg
                  |i env msg tr t _ Hg _|i env st t _ Hg].
  - by apply HJ with addr.
  - eapply at_threshold_prefix; [|by apply (HJ addr)].
    by apply prefix_app_r.
  - exact Hth.
  - by apply (Hpass i _ Hg).
  - by apply (Hpass i _ Hg).
  - assert (FileURLs (Process_end (errors st) t) = FileURLs t) as Hf
      by (unfold Process_end; by destruct (_ <? _)%nat).
    unfold at_threshold. rewrite Hf. by apply (Hpass i _ Hg).
Qed.

Lemma untouched_run acts : ∀ s s' evs,
  Inv cfg s →
  run cfg acts s = Some (s', evs) →
  (∀ addr t, heap s !! addr = Some t →
     Status t ≠ StatusCreated ∨ ErrorDetails t ≠ "" → at_threshold cfg t) →
  (∀ addr t, heap s' !! addr = Some t →
     Status t ≠ StatusCreated ∨ ErrorDetails t ≠ "" → at_threshold cfg t).
Proof.
  induction acts as [|a acts IH]; intros s s' evs HI Hrun HJ; simpl in Hrun.
  - by simplify_eq.
  - destruct (exec cfg a s) as [[s1 evs1]|] eqn:Hex; simpl in Hrun; [|done].
    destruct (run cfg acts s1) as [[s2 evs2]|] eqn:Hr; simpl in Hrun; [|done].
    simplify_eq. eapply (IH s1); [by eapply Inv_exec|done|].
    by eapply untouched_exec.
Qed.

(** X10. In every reachable state a task whose file count is below the
    threshold has never been processed: its status is Created, its
    error details are empty, and no goroutine is inside a pass for it. *)
Theorem below_threshold_is_untouched s addr t :
  reachable cfg s →
  heap s !! addr = Some t →
  ¬ at_threshold cfg t →
  Status t = StatusCreated
  ∧ ErrorDetails t = ""
  ∧ ∀ g, g ∈ goroutines s → ¬ in_pass_of addr g.
Proof.
  intros Hreach Hl Hth.
  pose proof (reachable_Inv _ _ Hreach) as [Hgs _].
  destruct Hreach as (s0 & acts & evs & Hnew & Hrun).
  assert (Status t ≠ StatusCreated ∨ ErrorDetails t ≠ "" → at_threshold cfg t)
    as HJ.
  { eapply (untouched_run acts s0 s evs); [by apply Inv_NewTaskManager|done| |done].
    intros addr' t' Hl'. unfold NewTaskManager in Hnew.
    destruct (_ <? _); by simplify_eq. }
  split_and!.
  - destruct (decide (Status t = StatusCreated)); [done|].
    destruct Hth. apply HJ. by left.
  - destruct (decide (ErrorDetails t = "")); [done|].
    destruct Hth. apply HJ. by right.
  - intros g Hg Hin. rewrite Forall_forall in Hgs. pose proof (Hgs _ Hg) as Hok.
    destruct g; simpl in Hin, Hok; try done; subst;
      destruct Hok as (tk & Htk & Hok); simplify_eq;
      first [by apply Hth|by apply Hth, (proj1 Hok)].
Qed.

(** X11. A step changes the file list of a task in one way only: an
    append request for an identifier registered to that task, with a body
    that decodes, adds the decoded URL at the end. No other request and no
    step of a pass changes a file list or an identifier, and a request
    never changes the status or the error details. *)
Theorem file_list_changes_only_by_append a s s' evs addr t :
  exec cfg a s = Some (s', evs) →
  heap s !! addr = Some t →
  ∃ t', heap s' !! addr = Some t'
        ∧ ID t' = ID t
        ∧ (FileURLs t' = FileURLs t
           ∨ ∃ taskID body url,
               a = AddFileReq taskID body ∧ Tasks s !! taskID = Some addr
               ∧ Decode_body body = Some url
               ∧ FileURLs t' = FileURLs t ++ [url])
        ∧ ((∀ i env, a ≠ Run i env) →
           Status t' = Status t ∧ ErrorDetails t' = ErrorDetails t).
Proof.
  intros Hex Hl.
  destruct (exec_task_write _ _ _ _ _ _ Hex Hl) as (t' & Hl' & Hwr).
  exists t'. split; [done|].
  destruct Hwr as [t|taskID body url t -> Ht Hd|i env t ->|i env t ->
                  |i env msg tr t ->|i env st t ->].
  - split_and!; [done|by left|done].
  - split_and!; [done| |done]. right. by exists taskID, body, url.
  - split_and!; [done|by left|]. intros Hne. by destruct (Hne i env).
  - split_and!; [done|by left|]. intros Hne. by destruct (Hne i env).
  - split_and!; [done|by left|]. intros Hne. by destruct (Hne i env).
  - split_and!; [ |left|intros Hne; by destruct (Hne i env)];
      unfold Process_end; by destruct (_ <? _)%nat.
Qed.

(** X12. Appends to two different tasks do not interfere: whichever of
    the two requests is handled first, each task gets exactly its own URL
    at the end of its file list, every other task is as it was, and the
    two orders end with the same tasks. *)
Theorem appends_to_two_tasks_commute s id1 id2 p1 p2 b1 b2 u1 u2 :
  Tasks s !! id1 = Some p1 →
  Tasks s !! id2 = Some p2 →
  p1 ≠ p2 →
  Decode_body b1 = Some u1 →
  Decode_body b2 = Some u2 →
  ∃ s12 s21,
    run cfg [AddFileReq id1 b1; AddFileReq id2 b2] s = Some (s12, [])
    ∧ run cfg [AddFileReq id2 b2; AddFileReq id1 b1] s = Some (s21, [])
    ∧ heap s12 = heap s21
    ∧ heap s12 !! p1 = AddFile u1 <$> heap s !! p1
    ∧ heap s12 !! p2 = AddFile u2 <$> heap s !! p2
    ∧ (∀ addr, addr ≠ p1 → addr ≠ p2 → heap s12 !! addr = heap s !! addr)
    ∧ Tasks s12 = Tasks s
    ∧ concurrentTaskSema s12 = concurrentTaskSema s.
Proof.
  intros H1 H2 Hne Hd1 Hd2.
  pose proof (AddFileHandler_records cfg s id1 b1 p1 u1 H1 Hd1) as E1.
  pose proof (AddFileHandler_records cfg s id2 b2 p2 u2 H2 Hd2) as E2.
  set (s1 := mkSystem (alter (AddFile u1) p1 (heap s)) (Tasks s)
               (concurrentTaskSema s) (goroutines s ++ [AddFile_check p1])) in *.
  set (s2 := mkSystem (alter (AddFile u2) p2 (heap s)) (Tasks s)
               (concurrentTaskSema s) (goroutines s ++ [AddFile_check p2])) in *.
  pose proof (AddFileHandler_records cfg s1 id2 b2 p2 u2 H2 Hd2) as E12.
  pose proof (AddFileHandler_records cfg s2 id1 b1 p1 u1 H1 Hd1) as E21.
  eexists. eexists. split_and!.
  - change (@nil Event) with (@nil Event ++ []).
    eapply run_cons_Some; [exact E1|]. apply run_one. exact E12.
  - change (@nil Event) with (@nil Event ++ []).
    eapply run_cons_Some; [exact E2|]. apply run_one. exact E21.
  - subst s1 s2. cbn [heap]. by apply list_alter_alter_ne.
  - subst s1. cbn [heap].
    by rewrite list_lookup_alter_ne, list_lookup_alter_eq.
  - subst s1. cbn [heap]. by rewrite list_lookup_alter_eq, list_lookup_alter_ne.
  - intros addr Hn1 Hn2. subst s1. cbn [heap].
    by rewrite !list_lookup_alter_ne.
  - done.
  - done.
Qed.

(** X13. [GetTaskStatusHandler] answers 404 for an identifier that is
    not registered. For an identifier that is registered in a reachable
    state, or returned by a create-task call since, it answers 200 with a
    task that carries that identifier, after any run: no identifier is
    ever lost. Right after its creation the task returned is the new
    task. *)
Theorem GetTaskStatusHandler_finds_created s :
  reachable cfg s →
  (∀ id, Tasks s !! id = None →
         GetTaskStatusHandler id s = [Respond http_StatusNotFound None])
  ∧ (∀ uuid, Z.of_nat (concurrentTaskSema s) < MaxConcurrentTasks cfg →
             GetTaskStatusHandler uuid (CreateTaskHandler cfg uuid s).1
             = [Respond http_StatusOK (Some (NewTask uuid))])
  ∧ (∀ acts s' evs id,
       run cfg acts s = Some (s', evs) →
       is_Some (Tasks s !! id) ∨ id ∈ omap created_id evs →
       ∃ tk, GetTaskStatusHandler id s' = [Respond http_StatusOK (Some tk)]
             ∧ ID tk = id).
Proof.
  intros Hreach. split_and!.
  - intros id Hid. unfold GetTaskStatusHandler. by rewrite Hid.
  - intros uuid Hfree. unfold CreateTaskHandler.
    assert ((Z.of_nat (concurrentTaskSema s) >=? MaxConcurrentTasks cfg) = false)
      as -> by (rewrite Z.geb_leb; apply Z.leb_gt; lia).
    unfold GetTaskStatusHandler. cbn [fst Tasks heap NewTask ID].
    rewrite lookup_insert_eq. by rewrite list_lookup_middle.
  - intros acts s' evs id Hrun Hid.
    destruct (run_created cfg _ _ _ _ Hrun) as [_ Hreg].
    destruct (Hreg id Hid) as [addr Haddr].
    pose proof (reachable_Inv _ _ (reachable_run _ _ _ _ _ Hreach Hrun))
      as [_ Hts].
    destruct (Hts _ _ Haddr) as (tk & Hl & Htk).
    exists tk. split; [|done].
    unfold GetTaskStatusHandler. by rewrite Haddr, Hl.
Qed.

Lemma exec_no_slot a :
  MaxConcurrentTasks cfg = 0 →
  exec cfg a (mkSystem [] ∅ 0 [])
  = if is_request a then Some (mkSystem [] ∅ 0 [], [no_slot_answer a])
    else None.
Proof.
  intros Hcap. destruct a as [uuid|taskID body|i env]; simpl.
  - unfold CreateTaskHandler. rewrite Hcap. done.
  - unfold AddFileHandler. cbn [Tasks]. by rewrite lookup_empty.
  - done.
Qed.

(** X14. With [MaxConcurrentTasks] equal to zero the server never holds
    a task. From its start, a sequence of requests is answered one by
    one, each create-task call by 503 and each append by 404, and leaves
    the state as it was; there is never a goroutine to schedule, so a run
    consists of requests only. *)
Theorem no_slot_no_task acts :
  MaxConcurrentTasks cfg = 0 →
  NewTaskManager cfg = Some (mkSystem [] ∅ 0 [])
  ∧ (forallb is_request acts = true →
     run cfg acts (mkSystem [] ∅ 0 [])
     = Some (mkSystem [] ∅ 0 [], no_slot_answer <$> acts))
  ∧ (∀ s evs,
       run cfg acts (mkSystem [] ∅ 0 []) = Some (s, evs) →
       forallb is_request acts = true
       ∧ s = mkSystem [] ∅ 0 []
       ∧ evs = no_slot_answer <$> acts).
Proof.
  intros Hcap. split; [by unfold NewTaskManager; rewrite Hcap|].
  assert (∀ s evs,
            run cfg acts (mkSystem [] ∅ 0 []) = Some (s, evs) →
            forallb is_request acts = true
            ∧ s = mkSystem [] ∅ 0 []
            ∧ evs = no_slot_answer <$> acts) as Honly.
  { induction acts as [|a acts IH]; intros s evs Hrun; cbn [run] in Hrun.
    - by simplify_eq.
    - rewrite (exec_no_slot a Hcap) in Hrun.
      destruct (is_request a) eqn:Ha; simpl in Hrun; [|done].
      destruct (run cfg acts (mkSystem [] ∅ 0 [])) as [[s2 evs2]|] eqn:Hr;
        simpl in Hrun; [|done].
      simplify_eq. destruct (IH _ _ eq_refl) as (Hall & -> & ->).
      cbn [forallb]. rewrite Ha, Hall. by rewrite fmap_cons. }
  split; [|exact Honly].
  clear Honly. induction acts as [|a acts IH]; intros Hall; [done|].
  cbn [forallb] in Hall. apply andb_prop in Hall as [Ha Hall].
  cbn [run]. rewrite (exec_no_slot a Hcap), Ha. simpl.
  by rewrite (IH Hall).
Qed.

End ManagerMore.

(** ** Serving and sweeping the archives *)

Section Archives.

Lemma prefix_slash c r :
  String.prefix "/" (String c r) = IsPathSeparator c.
Proof.
  unfold IsPathSeparator. cbn [String.prefix].
  destruct (ascii_dec "/" c) as [<-|Hne].
  - by destruct r.
  - symmetry. apply Ascii.eqb_neq. congruence.
Qed.

Lemma Contains_slash f :
  strings_Contains f "/" = false → no_separator f = true.
Proof.
  induction f as [|c f IH]; [done|].
  cbn [strings_Contains no_separator]. rewrite prefix_slash.
  intros [Hc Hf]%orb_false_elim. by rewrite Hc, IH.
Qed.

Lemma no_separator_rev_app r : ∀ acc,
  no_separator (String.rev_app r acc) = no_separator r && no_separator acc.
Proof.
  induction r as [|c r IH]; intros acc; [done|].
  cbn [String.rev_app no_separator]. rewrite IH. cbn [no_separator].
  by destruct (IsPathSeparator c), (no_separator r), (no_separator acc).
Qed.

Lemma strip_trailing_no_separator s :
  no_separator s = true → strip_trailing s = s.
Proof.
  destruct s as [|c s]; [done|]. simpl.
  by destruct (IsPathSeparator c).
Qed.

Lemma last_element_no_separator r : ∀ tail acc,
  no_separator r = true →
  last_element (String.rev_app r tail) acc = last_element tail (r +:+ acc).
Proof.
  induction r as [|c r IH]; intros tail acc Hr; [done|].
  simpl in Hr. apply andb_prop in Hr as [Hc Hr].
  cbn [String.rev_app]. rewrite IH by done. cbn [last_element].
  apply negb_true_iff in Hc. by rewrite Hc.
Qed.

(** A non-empty name without separator is its own [filepath.Base]. *)
Lemma Base_no_separator f :
  no_separator f = true → f ≠ "" → filepath_Base f = f.
Proof.
  intros Hf Hne. unfold filepath_Base.
  destruct (String.eqb_spec f "") as [|_]; [done|].
  unfold String.rev.
  rewrite strip_trailing_no_separator
    by (by rewrite no_separator_rev_app, Hf).
  rewrite last_element_no_separator by done. cbn [last_element].
  rewrite append_nil_r. by destruct (String.eqb_spec f "").
Qed.

(** X15. [ServeArchiveHandler] answers 400 without touching the file
    system when the name holds ".." or a slash. Whatever it gives to
    [os.Stat] and to [http.ServeFile] is the name as requested, holds no
    separator, is not "..", and is its own base name: the file served is
    an entry of the working directory. It serves only after [os.Stat],
    unless the file does not exist, and as "application/zip". *)
Theorem ServeArchiveHandler_stays_in_directory os_Stat filename :
  (strings_Contains filename ".." || strings_Contains filename "/" = true →
   ServeArchiveHandler os_Stat filename
   = [HttpError http_StatusBadRequest "invalid filename"])
  ∧ (∀ p, OsStat p ∈ ServeArchiveHandler os_Stat filename →
          p = filename ∧ no_separator p = true ∧ p ≠ ".."
          ∧ (p ≠ "" → filepath_Base p = p))
  ∧ (∀ p ct cd, ServeFile p ct cd ∈ ServeArchiveHandler os_Stat filename →
                OsStat p ∈ ServeArchiveHandler os_Stat filename
                ∧ os_Stat p ≠ StatNotExist
                ∧ ct = "application/zip")
  ∧ (os_Stat filename = StatNotExist →
     ∀ p ct cd, ServeFile p ct cd ∉ ServeArchiveHandler os_Stat filename).
Proof.
  unfold ServeArchiveHandler. split_and!.
  - by intros ->.
  - intros p Hin.
    destruct (strings_Contains filename "..") eqn:Hdots; simpl in Hin.
    { apply list_elem_of_singleton in Hin. done. }
    destruct (strings_Contains filename "/") eqn:Hslash; simpl in Hin.
    { apply list_elem_of_singleton in Hin. done. }
    assert (p = filename) as ->.
    { destruct (os_Stat filename);
        apply elem_of_cons in Hin as [[= ->]|Hin]; try done;
        apply list_elem_of_singleton in Hin; done. }
    pose proof (Contains_slash _ Hslash) as Hsep.
    split_and!; [done|done| |by apply Base_no_separator].
    intros ->. done.
  - intros p ct cd Hin.
    destruct (strings_Contains filename ".." || strings_Contains filename "/").
    { apply list_elem_of_singleton in Hin. done. }
    destruct (os_Stat filename) eqn:Hstat;
      apply elem_of_cons in Hin as [[=]|Hin];
      apply list_elem_of_singleton in Hin; simplify_eq;
      (split_and!; [by left|congruence|done]).
  - intros Hstat p ct cd Hin.
    destruct (strings_Contains filename ".." || strings_Contains filename "/").
    { apply list_elem_of_singleton in Hin. done. }
    rewrite Hstat in Hin.
    apply elem_of_cons in Hin as [[=]|Hin].
    apply list_elem_of_singleton in Hin. done.
Qed.

Lemma cleanup_walk_sound maxAge clock visited : ∀ k p,
  p ∈ cleanup_walk maxAge clock k visited →
  ∃ i info,
    visited !! i = Some (p, inr info)
    ∧ IsDir info = false
    ∧ filepath_Ext p = ".zip"
    ∧ maxAge < clock (k + i)%nat - ModTime info
    ∧ ∀ j, (j < i)%nat → ∃ q inf, visited !! j = Some (q, inr inf).
Proof.
  induction visited as [|[path [err|info]] visited IH]; intros k p Hin;
    cbn [cleanup_walk] in Hin.
  - by apply elem_of_nil in Hin.
  - by apply elem_of_nil in Hin.
  - apply elem_of_app in Hin as [Hin|Hin].
    + destruct (IsDir info) eqn:Hd; simpl in Hin;
        [by apply elem_of_nil in Hin|].
      destruct (String.eqb_spec (filepath_Ext path) ".zip") as [Hext|];
        [|by apply elem_of_nil in Hin].
      destruct (Z.gtb_spec (clock k - ModTime info) maxAge);
        [|by apply elem_of_nil in Hin].
      apply list_elem_of_singleton in Hin as ->.
      exists 0%nat, info. rewrite Nat.add_0_r. split_and!; try done. lia.
    + destruct (IH _ _ Hin) as (i & inf & Hl & Hd & Hext & Hage & Hbefore).
      exists (S i), inf. split_and!; try done.
      * by replace (k + S i)%nat with (S k + i)%nat by lia.
      * intros [|j] Hj; [by eexists _, _|]. apply Hbefore. lia.
Qed.

Lemma cleanup_walk_complete maxAge clock visited : ∀ k i p info,
  visited !! i = Some (p, inr info) →
  (∀ j, (j < i)%nat → ∃ q inf, visited !! j = Some (q, inr inf)) →
  IsDir info = false →
  filepath_Ext p = ".zip" →
  maxAge < clock (k + i)%nat - ModTime info →
  p ∈ cleanup_walk maxAge clock k visited.
Proof.
  induction visited as [|[path [err|inf]] visited IH];
    intros k i p info Hl Hbefore Hd Hext Hage.
  - done.
  - destruct i as [|i]; [done|].
    destruct (Hbefore 0%nat) as (q & inf & Hq); [lia|done].
  - cbn [cleanup_walk]. apply elem_of_app. destruct i as [|i].
    + left. simpl in Hl. simplify_eq. rewrite Hd, Hext. simpl.
      rewrite Nat.add_0_r in Hage.
      destruct (Z.gtb_spec (clock k - ModTime info) maxAge); [|lia].
      by apply list_elem_of_singleton.
    + right. apply (IH (S k) i p info); try done.
      * intros j Hj. apply (Hbefore (S j)). lia.
      * by replace (S k + i)%nat with (k + S i)%nat by lia.
Qed.

(** X16. One sweep of [cleanupOldArchives] gives to [os.Remove] only
    regular files whose extension is exactly ".zip", last modified more
    than [maxAge] before the moment they are visited, and visited before
    any error of the walk. The archive of every task, named as [Process]
    names it, is such a file whatever the task's identifier: it is
    removed by the first sweep that reaches it once it is older than
    [maxAge]. *)
Theorem cleanup_walk_removes_old_archives maxAge clock visited :
  (∀ p, p ∈ cleanup_walk maxAge clock 0 visited →
        ∃ i info,
          visited !! i = Some (p, inr info)
          ∧ IsDir info = false
          ∧ filepath_Ext p = ".zip"
          ∧ maxAge < clock i - ModTime info
          ∧ ∀ j, (j < i)%nat → ∃ q inf, visited !! j = Some (q, inr inf))
  ∧ (∀ i id info,
       visited !! i = Some (zipFileName_of id, inr info) →
       (∀ j, (j < i)%nat → ∃ q inf, visited !! j = Some (q, inr inf)) →
       IsDir info = false →
       maxAge < clock i - ModTime info →
       zipFileName_of id ∈ cleanup_walk maxAge clock 0 visited).
Proof.
  split.
  - intros p Hin. by apply cleanup_walk_sound in Hin.
  - intros i id info Hl Hbefore Hd Hage.
    eapply cleanup_walk_complete; try done.
    unfold zipFileName_of. by apply (Ext_suffix id "zip").
Qed.

End Archives.

(* ===================================================================== *)
(** * The further properties on the scenarios                            *)
(* ===================================================================== *)

Section MoreRuns.
Import Reference Scenario MoreScenarios.
Local Existing Instance externals.

Lemma reachable_in_flight : reachable cfg1 in_flight.
Proof.
  exists start, first_task_in_flight, (events_after cfg1 first_task_in_flight).
  split; [reflexivity|by vm_compute].
Qed.

Lemma reachable_at_send : reachable cfg1 at_send.
Proof.
  exists start, second_task_at_send, (events_after cfg1 second_task_at_send).
  split; [reflexivity|by vm_compute].
Qed.

Lemma reachable_one_of_two : reachable cfg2 (state_after cfg2 one_of_two).
Proof.
  exists start, one_of_two, (events_after cfg2 one_of_two).
  split; [reflexivity|by vm_compute].
Qed.

Lemma Process_filters_all_fetches_allowed_witness :
  omap filtered_url (trace (Process env_ok [".png"] (task_of [url_a; url_exe])))
  = [url_a; url_exe]
  ∧ omap fetched_url (trace (Process env_ok [".png"] (task_of [url_a; url_exe])))
    = allowed_urls env_ok [".png"] 0 [url_a; url_exe].
Proof.
  destruct (Process_filters_all_fetches_allowed env_ok [".png"]
              (task_of [url_a; url_exe]) eq_refl) as (Hf & Hg & _).
  split; [exact Hf|exact Hg].
Defined.

Lemma Process_all_rejected_witness :
  archive (Process env_ok [".png"] (task_of [url_exe; url_txt])) = Some []
  ∧ omap fetched_url (trace (Process env_ok [".png"] (task_of [url_exe; url_txt])))
    = []
  ∧ ErrorDetails (task (Process env_ok [".png"] (task_of [url_exe; url_txt])))
    = "file extension not allowed: http://example.com/b.exe; file extension not allowed: http://example.com/notes.txt?v=a.png".
Proof.
  destruct (Process_all_rejected env_ok [".png"] (task_of [url_exe; url_txt])
              eq_refl) as (Ha & Hf & _ & _ & He).
  - intros [|[|j]] u Hu; simpl in Hu; [| |done];
      injection Hu as <-; by vm_compute.
  - split_and!; [exact Ha|exact Hf|]. by rewrite He.
Defined.

Lemma Process_success_is_archived_witness :
  ∃ es, archive (Process env_ok [".png"] (task_of [url_exe; url_a])) = Some es
        ∧ (filepath_Base url_a, "data") ∈ es.
Proof.
  destruct (Process_success_is_archived env_ok [".png"]
              (task_of [url_exe; url_a]) 1 url_a
              (mkResponse 200 "200 OK" "data"))
    as (es & Ha & Hin & _).
  - reflexivity.
  - reflexivity.
  - repeat split; by vm_compute.
  - exists es. split; [exact Ha|exact Hin].
Defined.

Lemma Process_entries_follow_submission_witness :
  ∃ es, archive (Process env_ok [".png"] (task_of [url_a; url_exe; url_b]))
        = Some es
        ∧ es.*1 `sublist_of` (filepath_Base <$> [url_a; url_exe; url_b]).
Proof.
  destruct (Process_entries_follow_submission env_ok [".png"]
              (task_of [url_a; url_exe; url_b]) eq_refl)
    as (es & Ha & Hsub & _).
  exists es. split; [exact Ha|exact Hsub].
Defined.

Lemma isAllowedExtension_path_extension_witness :
  isAllowedExtension (λ q, map_to_list q) url_upper [".png"] = true.
Proof.
  refine (isAllowedExtension_path_extension (λ q, map_to_list q) url_upper
            [".png"] (mkURL "/photo.PNG" ∅) "/photo" "PNG" _ _ _ _ _).
  - by vm_compute.
  - reflexivity.
  - reflexivity.
  - by vm_compute.
  - apply list_elem_of_singleton. reflexivity.
Defined.

Lemma isAllowedExtension_dead_entries_witness :
  isAllowedExtension (λ q, map_to_list q) url_a [".png"; "png"; "*.png"]
  = isAllowedExtension (λ q, map_to_list q) url_a [".png"].
Proof.
  apply isAllowedExtension_dead_entries.
  intros e [->|(r & _ & ->)].
  - split; intros Hin; repeat (apply elem_of_cons in Hin as [?|Hin]);
      try done; by apply elem_of_nil in Hin.
  - split; intros Hin.
    + apply elem_of_cons in Hin as [->|Hin]; [by left|].
      exfalso. unfold strings_ToLower in Hin.
      destruct (is_ascii (String "." r));
        [change (ToLower_ascii (String "." r))
           with (String "." (ToLower_ascii r)) in Hin|];
        cbn [unicode_ToLower externals] in Hin;
        repeat (apply elem_of_cons in Hin as [?|Hin]); try done;
        by apply elem_of_nil in Hin.
    + apply list_elem_of_singleton in Hin as ->. by left.
Defined.

Lemma passes_bounded_by_MaxConcurrentTasks_witness :
  concurrentTaskSema at_send = passes at_send
  ∧ Z.of_nat (passes at_send) ≤ MaxConcurrentTasks cfg1.
Proof.
  exact (passes_bounded_by_MaxConcurrentTasks cfg1 at_send reachable_at_send).
Defined.

Lemma slot_wait_is_behind_a_pass_witness :
  ∃ j g, goroutines at_send !! j = Some g ∧ in_pass g = true ∧ j ≠ 1%nat.
Proof.
  refine (proj2 (slot_wait_is_behind_a_pass cfg1 at_send reachable_at_send)
            1%nat 1%nat _ _ _).
  - by vm_compute.
  - by vm_compute.
  - by vm_compute.
Defined.

Lemma pass_alone_is_Process_witness :
  ∃ k s',
    (k ≤ 4)%nat
    ∧ run cfg1 (replicate k (Run 0 env_ok)) in_flight = Some (s', [])
    ∧ heap s' = <[0%nat := task (Process env_ok [".png"] task_in_flight)]>
                  (heap in_flight).
Proof.
  destruct (pass_alone_is_Process cfg1 env_ok in_flight 0 0 task_in_flight
              reachable_in_flight)
    as (k & s' & Hk & Hrun & Hheap & _).
  - by vm_compute.
  - by vm_compute.
  - exists k, s'. split_and!; [exact Hk|exact Hrun|exact Hheap].
Defined.

Lemma append_at_threshold_end_to_end_witness :
  ∃ acts s',
    run cfg1 (AddFileReq "t2" (body_of url_b) :: acts)
      (state_after cfg1 [CreateTaskReq "t1"; CreateTaskReq "t2"])
    = Some (s', [Launch 1; Respond 202 None])
    ∧ heap s' !! 1%nat
      = Some (task (Process env_ok [".png"]
                      (SetResultURL (AddFile url_b (NewTask "t2"))))).
Proof.
  destruct (append_at_threshold_end_to_end cfg1 env_ok
              (state_after cfg1 [CreateTaskReq "t1"; CreateTaskReq "t2"])
              "t2" (body_of url_b) 1 (NewTask "t2") url_b)
    as (acts & s' & done & Hrun & -> & Hheap & _).
  - exists start, [CreateTaskReq "t1"; CreateTaskReq "t2"],
      (events_after cfg1 [CreateTaskReq "t1"; CreateTaskReq "t2"]).
    split; [reflexivity|by vm_compute].
  - by vm_compute.
  - by vm_compute.
  - reflexivity.
  - by vm_compute.
  - by vm_compute.
  - exists acts, s'. split; [exact Hrun|]. rewrite Hheap. by vm_compute.
Defined.

Lemma below_threshold_is_untouched_witness :
  Status (AddFile url_a (NewTask "t1")) = StatusCreated
  ∧ ErrorDetails (AddFile url_a (NewTask "t1")) = "".
Proof.
  destruct (below_threshold_is_untouched cfg2 (state_after cfg2 one_of_two)
              0 (AddFile url_a (NewTask "t1")) reachable_one_of_two)
    as (Hs & He & _).
  - by vm_compute.
  - unfold at_threshold. vm_compute. by intros ?.
  - split; [exact Hs|exact He].
Defined.

Lemma file_list_changes_only_by_append_witness :
  ∃ t', heap (state_after cfg1
                (first_task_in_flight ++ [AddFileReq "t2" (body_of url_b)]))
          !! 1%nat = Some t'
        ∧ ID t' = "t2".
Proof.
  destruct (file_list_changes_only_by_append cfg1
              (AddFileReq "t2" (body_of url_b)) in_flight
              (state_after cfg1
                 (first_task_in_flight ++ [AddFileReq "t2" (body_of url_b)]))
              [] 1 (NewTask "t2"))
    as (t' & Hl & Hid & _).
  - by vm_compute.
  - by vm_compute.
  - exists t'. split; [exact Hl|exact Hid].
Defined.

Lemma appends_to_two_tasks_commute_witness :
  ∃ s12 s21,
    run cfg1 [AddFileReq "t1" (body_of url_b); AddFileReq "t2" (body_of url_a)]
      in_flight = Some (s12, [])
    ∧ run cfg1 [AddFileReq "t2" (body_of url_a); AddFileReq "t1" (body_of url_b)]
        in_flight = Some (s21, [])
    ∧ heap s12 = heap s21.
Proof.
  destruct (appends_to_two_tasks_commute cfg1 in_flight "t1" "t2" 0 1
              (body_of url_b) (body_of url_a) url_b url_a)
    as (s12 & s21 & H12 & H21 & Heq & _).
  - by vm_compute.
  - by vm_compute.
  - lia.
  - reflexivity.
  - reflexivity.
  - exists s12, s21. split_and!; [exact H12|exact H21|exact Heq].
Defined.

Lemma GetTaskStatusHandler_finds_created_witness :
  GetTaskStatusHandler "t9" in_flight = [Respond 404 None]
  ∧ ∃ tk, GetTaskStatusHandler "t2" at_send = [Respond 200 (Some tk)]
          ∧ ID tk = "t2".
Proof.
  destruct (GetTaskStatusHandler_finds_created cfg1 in_flight
              reachable_in_flight) as (Hnone & _ & Hlater).
  split.
  - apply Hnone. by vm_compute.
  - apply (Hlater [AddFileReq "t2" (body_of url_b); Run 1 env_ok] at_send []).
    + by vm_compute.
    + left. exists 1%nat. by vm_compute.
Defined.

Lemma no_slot_no_task_witness :
  run cfg0 [CreateTaskReq "t1"; AddFileReq "t1" (body_of url_a);
            CreateTaskReq "t2"] (mkSystem [] ∅ 0 [])
  = Some (mkSystem [] ∅ 0 [],
          [Respond http_StatusServiceUnavailable None;
           Respond http_StatusNotFound None;
           Respond http_StatusServiceUnavailable None]).
Proof.
  exact (proj1 (proj2 (no_slot_no_task cfg0
                         [CreateTaskReq "t1"; AddFileReq "t1" (body_of url_a);
                          CreateTaskReq "t2"] eq_refl)) eq_refl).
Defined.

Lemma ServeArchiveHandler_stays_in_directory_witness :
  filepath_Base (zipFileName_of "t1") = zipFileName_of "t1"
  ∧ ServeArchiveHandler stat_found "../t1.zip"
    = [HttpError http_StatusBadRequest "invalid filename"].
Proof.
  destruct (ServeArchiveHandler_stays_in_directory stat_found
              (zipFileName_of "t1")) as (_ & Hstat & _).
  destruct (ServeArchiveHandler_stays_in_directory stat_found "../t1.zip")
    as (Hbad & _).
  split.
  - destruct (Hstat (zipFileName_of "t1")) as (_ & _ & _ & Hbase).
    + vm_compute. by left.
    + apply Hbase. by vm_compute.
  - apply Hbad. by vm_compute.
Defined.

Lemma cleanup_walk_removes_old_archives_witness :
  zipFileName_of "t1" ∈ cleanup_walk ten_minutes late_clock 0 one_archive.
Proof.
  refine (proj2 (cleanup_walk_removes_old_archives ten_minutes late_clock
                   one_archive) 1%nat "t1" (mkFileInfo false 0) _ _ _ _).
  - reflexivity.
  - intros [|j] Hj; [by eexists _, _|lia].
  - reflexivity.
  - by vm_compute.
Defined.

End MoreRuns.
